(** * xmtp-js key bundles: a shallow embedding of [src/crypto/PrivateKeyBundle.ts]

    The development follows the TypeScript class method by method.  Byte
    arrays ([Uint8Array]) are lists of bytes, thrown [Error]s are values of
    an error type, [undefined] is [None], and the awaited calls that reach
    the outside (entropy, the identity key's signature, the wallet, the
    AEAD cipher) are steps of a state-and-error monad over an abstract
    [World].  A failing step keeps the state it has reached, so that what a
    method has mutated before it throws can be observed. *)

From Stdlib Require Import String Bool Arith Lia ZArith Zpow_facts List.
From Stdlib Require Import Strings.Byte.
Import ListNotations.

Set Implicit Arguments.

(** ** Bytes *)

Definition bytes := list byte.

Fixpoint bytes_eqb (a b : bytes) : bool :=
  match a, b with
  | [], [] => true
  | x :: a', y :: b' => Byte.eqb x y && bytes_eqb a' b'
  | _, _ => false
  end.

(** ** Errors

    One constructor per [throw new Error('...')] of the class, named as the
    specification names the failure; [message] gives the string the source
    throws.  [TypeError] is what JavaScript raises on a property access or a
    call on [undefined]; [RangeError] what [Uint8Array.prototype.set] raises
    when the source does not fit; [External] stands for a rejection coming
    from a collaborator (entropy source, signer, cipher, protobuf reader). *)

Inductive Error : Type :=
| InvalidPeerBundle
| PreKeySignatureInvalid
| MissingIdentityKey
| PreKeyNotFound
| MissingPreKeys
| MissingWalletPreKey
| MissingCiphertext
| TypeError
| RangeError
| External (reason : string).

Definition message (e : Error) : string :=
  match e with
  | InvalidPeerBundle => "invalid peer key bundle"
  | PreKeySignatureInvalid => "peer preKey signature invalid"
  | MissingIdentityKey => "missing identity key"
  | PreKeyNotFound => "no matching pre-key found"
  | MissingPreKeys => "missing pre-keys"
  | MissingWalletPreKey => "missing wallet pre-key"
  | MissingCiphertext => "missing bundle ciphertext"
  | TypeError => "Cannot read properties of undefined"
  | RangeError => "offset is out of bounds"
  | External reason => reason
  end.

Inductive Result (A : Type) : Type :=
| Ok (value : A)
| Err (error : Error).

Arguments Ok {A} value.
Arguments Err {A} error.

(** *** The pure error monad (synchronous code that may throw) *)

Definition rbind {A B} (r : Result A) (k : A -> Result B) : Result B :=
  match r with
  | Ok a => k a
  | Err e => Err e
  end.

(** Reading a member of a possibly [undefined] value. *)
Definition deref {A} (o : option A) : Result A :=
  match o with
  | Some a => Ok a
  | None => Err TypeError
  end.

(** *** The state-and-error monad (code that awaits or mutates) *)

Definition M (S A : Type) : Type := S -> Result A * S.

Definition ret {S A} (a : A) : M S A := fun s => (Ok a, s).

Definition throw {S A} (e : Error) : M S A := fun s => (Err e, s).

Definition bind {S A B} (m : M S A) (k : A -> M S B) : M S B :=
  fun s =>
    match m s with
    | (Ok a, s') => k a s'
    | (Err e, s') => (Err e, s')
    end.

Definition lift {S A} (r : Result A) : M S A := fun s => (r, s).

(** A method of an object runs over the pair of the object ([this]) and the
    world; [inWorld] runs a step that only touches the world. *)
Definition inWorld {T W A} (m : M W A) : M (T * W) A :=
  fun s =>
    let '(r, w') := m (snd s) in (r, (fst s, w')).

Definition getThis {T W} : M (T * W) T := fun s => (Ok (fst s), s).

Definition modifyThis {T W} (f : T -> T) : M (T * W) unit :=
  fun s => (Ok tt, (f (fst s), snd s)).

(** [call obj m] invokes the method [m] on the object [obj] and hands back
    the object as the method left it together with the method's result. *)
Definition call {T W A} (obj : T) (m : M (T * W) A) : M W (A * T) :=
  fun w =>
    match m (obj, w) with
    | (Ok a, (obj', w')) => (Ok (a, obj'), w')
    | (Err e, (_, w')) => (Err e, w')
    end.

(** A promise that is started but never awaited: its rejection cannot reach
    the caller, and its value is there only when it resolved. *)
Definition floating {S A} (m : M S A) : M S (option A) :=
  fun s =>
    match m s with
    | (Ok a, s') => (Ok (Some a), s')
    | (Err _, s') => (Ok None, s')
    end.

Declare Scope js_scope.
Delimit Scope js_scope with js.

Notation "x <- c ;; k" := (bind c (fun x => k))
  (at level 100, c at next level, right associativity) : js_scope.
Notation "'let?' x := c 'in' k" := (rbind c (fun x => k))
  (at level 100, x name, c at next level, k at level 100, right associativity) : js_scope.

Open Scope js_scope.

(** ** [Uint8Array] construction used by [sharedSecret] *)

(** [new Uint8Array(n)]: [n] zero bytes. *)
Definition Uint8Array_new (n : nat) : bytes := repeat x00 n.

(** [target.set(source, offset)]: overwrite in place from [offset];
    a source that does not fit raises [RangeError]. *)
Definition Uint8Array_set (target source : bytes) (offset : nat) : Result bytes :=
  if offset + length source <=? length target
  then Ok (firstn offset target ++ source ++ skipn (offset + length source) target)
  else Err RangeError.

(** ** The platform

    What the class reaches through its imports and the sources do not
    contain: the curve behind [./PrivateKey] and [./PublicKey], the wallet
    ([ethers.Signer]) and the helpers of [./utils].  They are parameters of
    the development.  [sign] and [signMessage] are awaited in the source
    and may reject; [verify] and [getSharedSecret] are computations. *)

Class Platform : Type := {
  World : Type;
  Signer : Type;
  (* secp256k1 *)
  randomPrivateKey : M World bytes;
  getPublicKey : bytes -> bytes;
  sign : bytes -> bytes -> M World bytes;
  verify : bytes -> bytes -> bytes -> bool;
  getSharedSecret : bytes -> bytes -> bytes;
  (* ethers.Signer *)
  signMessage : Signer -> bytes -> M World string;
  (* ./utils *)
  getRandomValues : nat -> M World bytes;
  hexToBytes : string -> bytes
}.

(** ** Keys *)

Module PublicKey.
(** Modelled from the spec: the class [PublicKey] ([./PublicKey]) is not
    among the sources; section 3 gives it as a curve point with an
    optional signature attached by the key that vouches for it. *)
Record t : Type := mk { point : bytes; signature : option bytes }.

(** The key [pub] once [sig] has been written into its [signature]. *)
Definition withSignature (pub : t) (sig : bytes) : t :=
  {| point := point pub; signature := Some sig |}.

(** Modelled from the spec: [equals] of the absent class; two public keys
    are the same key when their points are. *)
Definition equals (a b : t) : bool := bytes_eqb (point a) (point b).

(** Modelled from the spec: the constructor [new PublicKey(obj)] of the
    absent class; it takes over the material of [obj]. *)
Definition new (obj : t) : t :=
  {| point := point obj; signature := signature obj |}.

Section Methods.
Context {P : Platform}.

(** Modelled from the spec: [this.verifyKey(pub)] holds when [pub]
    carries a signature over its point that verifies under this key. *)
Definition verifyKey (this pub : t) : bool :=
  match signature pub with
  | Some sig => verify (point this) (point pub) sig
  | None => false
  end.

(** Modelled from the spec: [this.signWithWallet(wallet)] has the wallet
    sign the point and attaches the attestation. *)
Definition signWithWallet (this : t) (wallet : Signer) : M World t :=
  sig <- signMessage wallet (point this) ;;
  ret (withSignature this (hexToBytes sig)).
End Methods.
End PublicKey.

Module PrivateKey.
(** Modelled from the spec: the class [PrivateKey] ([./PrivateKey]) is not
    among the sources; section 3 gives it as a secret scalar with its
    public key. *)
Record t : Type := mk { secret : bytes; publicKey : PublicKey.t }.

(** The key once its [publicKey] object has been updated to [pub]. *)
Definition withPublicKey (key : t) (pub : PublicKey.t) : t :=
  {| secret := secret key; publicKey := pub |}.

(** Modelled from the spec: [matches(publicKey)] is true iff this key's
    public half equals the given public key. *)
Definition matches (key : t) (which : PublicKey.t) : bool :=
  PublicKey.equals (publicKey key) which.

(** Modelled from the spec: the constructor [new PrivateKey(protoKey)] of
    the absent class; it takes over the material of the parsed key. *)
Definition new (obj : t) : t :=
  {| secret := secret obj; publicKey := PublicKey.new (publicKey obj) |}.

Section Methods.
Context {P : Platform}.

(** Modelled from the spec: [PrivateKey.generate()] draws a fresh secret
    and derives its public point; the public key is not yet signed. *)
Definition generate : M World t :=
  s <- randomPrivateKey ;;
  ret {| secret := s;
         publicKey := {| PublicKey.point := getPublicKey s;
                         PublicKey.signature := None |} |}.

(** Modelled from the spec: [this.signKey(pub)] signs the point of [pub]
    with this secret and attaches the signature to [pub]. *)
Definition signKey (this : t) (pub : PublicKey.t) : M World PublicKey.t :=
  sig <- sign (secret this) (PublicKey.point pub) ;;
  ret (PublicKey.withSignature pub sig).

(** Modelled from the spec: [this.sharedSecret(peer)] is the
    Diffie-Hellman combination of this secret with the peer's point. *)
Definition sharedSecret (this : t) (peer : PublicKey.t) : bytes :=
  getSharedSecret (secret this) (PublicKey.point peer).
End Methods.
End PrivateKey.

Module PublicKeyBundle.
(** Modelled from the spec: [PublicKeyBundle] ([./PublicKeyBundle]) is not
    among the sources; it is the identity public key with the advertised
    pre-key.  Both fields are optional on the wire, which is why
    [sharedSecret] tests them. *)
Record t : Type := mk {
  identityKey : option PublicKey.t;
  preKey : option PublicKey.t
}.

(** Modelled from the spec: the constructor
    [new PublicKeyBundle(identityKey, preKey)] of the absent class. *)
Definition new (identityKey preKey : PublicKey.t) : t :=
  {| identityKey := Some identityKey; preKey := Some preKey |}.
End PublicKeyBundle.

Module Ciphertext.
(** Modelled from the spec: [Ciphertext] ([./Ciphertext]) is not among the
    sources; it is a tagged union with one recognised variant, an AEAD
    payload with its salt and nonce. *)
Record Aes256gcmHkdfsha256 : Type := mkAes {
  hkdfSalt : bytes;
  gcmNonce : bytes;
  payload : bytes
}.

Record t : Type := mk { aes256GcmHkdfSha256 : option Aes256gcmHkdfsha256 }.

(** Modelled from the spec: the constructor [new Ciphertext(obj)] of the
    absent class; it takes over the parsed variant.  What it may refuse is
    left to [decrypt]. *)
Definition new (obj : t) : t :=
  {| aes256GcmHkdfSha256 := aes256GcmHkdfSha256 obj |}.
End Ciphertext.

Module EncryptedPrivateKeyBundle.
(** The persisted envelope ([proto.EncryptedPrivateKeyBundle]). *)
Record t : Type := mk {
  walletPreKey : option bytes;
  ciphertext : option Ciphertext.t
}.
End EncryptedPrivateKeyBundle.

(** ** [class PrivateKeyBundle] *)

Module PrivateKeyBundle.
(** The fields.  The declared type of [identityKey] is [PrivateKey], but
    [sharedSecret] and [encode] test it for [undefined], so the field is
    optional here.  [preKeys] is the array, most recent key first. *)
Record t : Type := mk {
  identityKey : option PrivateKey.t;
  preKeys : list PrivateKey.t
}.

(** [constructor(identityKey, preKeys?)]: [this.preKeys = preKeys || []]. *)
Definition new (identityKey : option PrivateKey.t)
               (preKeys : option (list PrivateKey.t)) : t :=
  {| identityKey := identityKey;
     preKeys := match preKeys with Some keys => keys | None => [] end |}.

(** [this.preKeys.unshift(preKey)] *)
Definition unshift (preKey : PrivateKey.t) (this : t) : t :=
  {| identityKey := identityKey this; preKeys := preKey :: preKeys this |}.

(** What [./encryption] and [proto/messaging] provide: the AEAD, which
    draws its salt and nonce from the world and may reject, and the
    protobuf writers and readers of the two messages. *)
Class Storage {P : Platform} : Type := {
  encrypt : bytes -> bytes -> M World Ciphertext.t;
  decrypt : Ciphertext.t -> bytes -> M World bytes;
  encodePrivateKeyBundle : t -> bytes;
  decodePrivateKeyBundle : bytes -> Result t;
  encodeEncryptedPrivateKeyBundle : EncryptedPrivateKeyBundle.t -> bytes;
  decodeEncryptedPrivateKeyBundle : bytes -> Result EncryptedPrivateKeyBundle.t
}.

Section Methods.
Context {P : Platform}.

(** [getCurrentPreKey()]: [this.preKeys[0]], [undefined] on an empty
    array. *)
Definition getCurrentPreKey (this : t) : option PrivateKey.t :=
  nth_error (preKeys this) 0.

(** [findPreKey(which)] *)
Definition findPreKey (this : t) (which : PublicKey.t) : Result PrivateKey.t :=
  match find (fun key => PrivateKey.matches key which) (preKeys this) with
  | Some preKey => Ok preKey
  | None => Err PreKeyNotFound
  end.

(** [addPreKey()]: runs on [this] and the world.  [signKey] writes the
    signature into [preKey.publicKey], the very object that [preKey]
    holds, so the key that is unshifted carries it. *)
Definition addPreKey : M (t * World) unit :=
  preKey <- inWorld PrivateKey.generate ;;
  this <- getThis ;;
  identityKey <- lift (deref (identityKey this)) ;;
  signed <- inWorld (PrivateKey.signKey identityKey (PrivateKey.publicKey preKey)) ;;
  modifyThis (unshift (PrivateKey.withPublicKey preKey signed)).

(** [static generate(wallet?)].  [signWithWallet] is called without
    [await]: a rejection of the wallet does not reach [generate], and the
    attestation is written into the identity key's public key only if the
    wallet gave it (the model shows the key once the wallet has answered;
    when that happens relative to [addPreKey] is a matter of scheduling). *)
Definition generate (wallet : option Signer) : M World t :=
  identityKey <- PrivateKey.generate ;;
  identityKey <-
    match wallet with
    | Some wallet =>
        attested <- floating (PublicKey.signWithWallet
                                (PrivateKey.publicKey identityKey) wallet) ;;
        ret match attested with
            | Some pub => PrivateKey.withPublicKey identityKey pub
            | None => identityKey
            end
    | None => ret identityKey
    end ;;
  let bundle := new (Some identityKey) None in
  done <- call bundle addPreKey ;;
  ret (snd done).

(** [getPublicKeyBundle()]: both arguments read [.publicKey], which
    raises on [undefined]. *)
Definition getPublicKeyBundle (this : t) : Result PublicKeyBundle.t :=
  let? identityKey := deref (identityKey this) in
  let? preKey := deref (getCurrentPreKey this) in
  Ok (PublicKeyBundle.new (PrivateKey.publicKey identityKey)
                          (PrivateKey.publicKey preKey)).

(** The three writes that fill [secret] in [sharedSecret]. *)
Definition concat3 (dh1 dh2 dh3 : bytes) : Result bytes :=
  let secret := Uint8Array_new (length dh1 + length dh2 + length dh3) in
  let? secret := Uint8Array_set secret dh1 0 in
  let? secret := Uint8Array_set secret dh2 (length dh1) in
  let? secret := Uint8Array_set secret dh3 (length dh1 + length dh2) in
  Ok secret.

(** [sharedSecret(peer, recipientPreKey?)].  In the sender branch
    [preKey] may be [undefined]; the call [preKey.sharedSecret] then
    raises. *)
Definition sharedSecret (this : t) (peer : PublicKeyBundle.t)
           (recipientPreKey : option PublicKey.t) : Result bytes :=
  match PublicKeyBundle.identityKey peer, PublicKeyBundle.preKey peer with
  | Some peerIdentityKey, Some peerPreKey =>
      if negb (PublicKey.verifyKey peerIdentityKey peerPreKey)
      then Err PreKeySignatureInvalid
      else
        match identityKey this with
        | None => Err MissingIdentityKey
        | Some identityKey =>
            let? dhs :=
              match recipientPreKey with
              | Some recipientPreKey =>
                  let? preKey := findPreKey this recipientPreKey in
                  let dh1 := PrivateKey.sharedSecret preKey peerIdentityKey in
                  let dh2 := PrivateKey.sharedSecret identityKey peerPreKey in
                  Ok (dh1, dh2, preKey)
              | None =>
                  let preKey := getCurrentPreKey this in
                  let dh1 := PrivateKey.sharedSecret identityKey peerPreKey in
                  let? preKey := deref preKey in
                  let dh2 := PrivateKey.sharedSecret preKey peerIdentityKey in
                  Ok (dh1, dh2, preKey)
              end in
            let '(dh1, dh2, preKey) := dhs in
            let dh3 := PrivateKey.sharedSecret preKey peerPreKey in
            concat3 dh1 dh2 dh3
        end
  | _, _ => Err InvalidPeerBundle
  end.

Context {St : Storage}.

(** [encode(wallet)] *)
Definition encode (this : t) (wallet : Signer) : M World bytes :=
  if length (preKeys this) =? 0
  then throw MissingPreKeys
  else
    match identityKey this with
    | None => throw MissingIdentityKey
    | Some identityKey =>
        let bytes := encodePrivateKeyBundle
                       {| identityKey := Some identityKey;
                          preKeys := preKeys this |} in
        wPreKey <- getRandomValues 32 ;;
        sig <- signMessage wallet wPreKey ;;
        let secret := hexToBytes sig in
        ciphertext <- encrypt bytes secret ;;
        ret (encodeEncryptedPrivateKeyBundle
               {| EncryptedPrivateKeyBundle.walletPreKey := Some wPreKey;
                  EncryptedPrivateKeyBundle.ciphertext := Some ciphertext |})
    end.

(** [encrypted.ciphertext?.aes256GcmHkdfSha256] *)
Definition aeadOf (ciphertext : option Ciphertext.t)
  : option Ciphertext.Aes256gcmHkdfsha256 :=
  match ciphertext with
  | Some c => Ciphertext.aes256GcmHkdfSha256 c
  | None => None
  end.

(** [static decode(wallet, bytes)] *)
Definition decode (wallet : Signer) (bytes : bytes) : M World t :=
  encrypted <- lift (decodeEncryptedPrivateKeyBundle bytes) ;;
  match EncryptedPrivateKeyBundle.walletPreKey encrypted with
  | None => throw MissingWalletPreKey
  | Some walletPreKey =>
      sig <- signMessage wallet walletPreKey ;;
      let secret := hexToBytes sig in
      match EncryptedPrivateKeyBundle.ciphertext encrypted,
            aeadOf (EncryptedPrivateKeyBundle.ciphertext encrypted) with
      | Some c, Some _ =>
          let ciphertext := Ciphertext.new c in
          decrypted <- decrypt ciphertext secret ;;
          bundle <- lift (decodePrivateKeyBundle decrypted) ;;
          match identityKey bundle with
          | None => throw MissingIdentityKey
          | Some identityKey =>
              if length (preKeys bundle) =? 0
              then throw MissingPreKeys
              else ret (new (Some (PrivateKey.new identityKey))
                            (Some (map PrivateKey.new (preKeys bundle))))
          end
      | _, _ => throw MissingCiphertext
      end
  end.
End Methods.
End PrivateKeyBundle.

(** ** [class TestKeyCodec] ([test/ContentTypeTestKey.ts])

    A content codec that carries a [PublicKey]. *)

Module ContentTypeId.
(** Modelled from the spec: [ContentTypeId] is imported from ['../src'] and
    is not among the sources; it is the identifier the test file builds
    from its four fields. *)
Record t : Type := mk {
  authorityId : string;
  typeId : string;
  versionMajor : nat;
  versionMinor : nat
}.
End ContentTypeId.

Module EncodedContent.
(** Modelled from the spec: [EncodedContent] is imported from ['../src'] and
    is not among the sources; [encode] fills its three fields.
    [parameters] is a string-keyed object, here an association list. *)
Record t : Type := mk {
  type : ContentTypeId.t;
  parameters : list (string * string);
  content : bytes
}.
End EncodedContent.

(** [export const ContentTypeTestKey] *)
Definition ContentTypeTestKey : ContentTypeId.t :=
  {| ContentTypeId.authorityId := "xmtp.test";
     ContentTypeId.typeId := "public-key";
     ContentTypeId.versionMajor := 1;
     ContentTypeId.versionMinor := 0 |}.

Module TestKeyCodec.
(** What [@xmtp/proto] provides: the protobuf writer and reader of
    [PublicKey]. *)
Class Wire : Type := {
  encodePublicKey : PublicKey.t -> bytes;
  decodePublicKey : bytes -> Result PublicKey.t
}.

Section Methods.
Context {W : Wire}.

(** [get contentType()] *)
Definition contentType : ContentTypeId.t := ContentTypeTestKey.

(** [encode(key)] *)
Definition encode (key : PublicKey.t) : EncodedContent.t :=
  {| EncodedContent.type := ContentTypeTestKey;
     EncodedContent.parameters := [];
     EncodedContent.content := encodePublicKey key |}.

(** [decode(content)]: the reader may throw; the content's [type] and
    [parameters] are not looked at. *)
Definition decode (content : EncodedContent.t) : Result PublicKey.t :=
  let? parsed := decodePublicKey (EncodedContent.content content) in
  Ok (PublicKey.new parsed).
End Methods.
End TestKeyCodec.

(** ** A small concrete platform

    An instance of the parameters, used to run the model: Diffie-Hellman in
    the multiplicative group modulo 251 with one-byte scalars, a signature
    that is the signer's public point followed by the message, a wallet
    that answers with its name followed by the message (and rejects when it
    has no name), an AEAD that keeps the key as the tag, and a
    self-delimiting wire format. *)

Module Toy.

Record world : Type := mkWorld {
  entropy : nat;     (* what the random source yields next *)
  locked : bool      (* the identity key's signer refuses to sign *)
}.

Definition tick (w : world) : world :=
  {| entropy := S (entropy w); locked := locked w |}.

Definition modulus : Z := 251.
Definition generator : Z := 6.

Definition toZ (b : bytes) : Z :=
  match b with
  | [] => 0%Z
  | x :: _ => Z.of_N (Byte.to_N x)
  end.

Definition ofZ (z : Z) : bytes :=
  match Byte.of_N (Z.to_N z) with
  | Some b => [b]
  | None => []
  end.

Definition drawScalar : M world bytes :=
  fun w => (Ok (ofZ (1 + Z.of_nat (entropy w) mod 250)), tick w).

Definition publicPoint (s : bytes) : bytes :=
  ofZ ((generator ^ toZ s) mod modulus).

Definition combine (s peer : bytes) : bytes :=
  ofZ ((toZ peer ^ toZ s) mod modulus).

Definition signWith (s msg : bytes) : M world bytes :=
  fun w =>
    if locked w
    then (Err (External "signing rejected"), w)
    else (Ok (publicPoint s ++ msg), w).

Definition checkSig (pub msg sig : bytes) : bool :=
  bytes_eqb sig (pub ++ msg).

Definition walletSign (wallet msg : bytes) : M world string :=
  match wallet with
  | [] => throw (External "user rejected signing")
  | _ :: _ => ret (string_of_list_byte (wallet ++ msg))
  end.

Definition drawBytes (n : nat) : M world bytes :=
  fun w => (Ok (repeat (hd x00 (ofZ (Z.of_nat (entropy w) mod 256))) n), tick w).

Definition unhex (s : string) : bytes := list_byte_of_string s.

#[export] Instance platform : Platform := {|
  World := world;
  Signer := bytes;
  randomPrivateKey := drawScalar;
  getPublicKey := publicPoint;
  sign := signWith;
  verify := checkSig;
  getSharedSecret := combine;
  signMessage := walletSign;
  getRandomValues := drawBytes;
  hexToBytes := unhex
|}.

(** *** The cipher *)

Definition seal (plain key : bytes) : M world Ciphertext.t :=
  fun w =>
    (Ok {| Ciphertext.aes256GcmHkdfSha256 :=
             Some {| Ciphertext.hkdfSalt := key;
                     Ciphertext.gcmNonce := ofZ (Z.of_nat (entropy w) mod 256);
                     Ciphertext.payload := plain |} |},
     tick w).

Definition unseal (c : Ciphertext.t) (key : bytes) : M world bytes :=
  match Ciphertext.aes256GcmHkdfSha256 c with
  | Some a =>
      if bytes_eqb (Ciphertext.hkdfSalt a) key
      then ret (Ciphertext.payload a)
      else throw (External "authentication failed")
  | None => throw (External "unrecognized ciphertext")
  end.

(** *** The wire format

    A writer prepends to what follows; a reader hands back what is left.
    A byte string is written byte by byte, each after a [x01], and closed
    by [x00]; an optional value after a presence byte; a list after its
    length in unary. *)

Record codec (A : Type) : Type := mkCodec {
  put : A -> bytes -> bytes;
  take : bytes -> option (A * bytes)
}.

Fixpoint putBytes (l rest : bytes) : bytes :=
  match l with
  | [] => x00 :: rest
  | b :: l' => x01 :: b :: putBytes l' rest
  end.

Fixpoint takeBytes (input : bytes) : option (bytes * bytes) :=
  match input with
  | [] => None
  | tag :: after =>
      if Byte.eqb tag x00 then Some ([], after)
      else
        match after with
        | [] => None
        | b :: rest =>
            match takeBytes rest with
            | Some (l, remaining) => Some (b :: l, remaining)
            | None => None
            end
        end
  end.

Definition bytesC : codec bytes := {| put := putBytes; take := takeBytes |}.

Definition optionC {A} (c : codec A) : codec (option A) :=
  {| put := fun o rest =>
       match o with
       | None => x00 :: rest
       | Some a => x01 :: put c a rest
       end;
     take := fun input =>
       match input with
       | [] => None
       | tag :: after =>
           if Byte.eqb tag x00 then Some (None, after)
           else
             match take c after with
             | Some (a, remaining) => Some (Some a, remaining)
             | None => None
             end
       end |}.

Definition pairC {A B} (ca : codec A) (cb : codec B) : codec (A * B) :=
  {| put := fun p rest => put ca (fst p) (put cb (snd p) rest);
     take := fun input =>
       match take ca input with
       | Some (a, mid) =>
           match take cb mid with
           | Some (b, remaining) => Some ((a, b), remaining)
           | None => None
           end
       | None => None
       end |}.

Fixpoint putAll {A} (c : codec A) (l : list A) (rest : bytes) : bytes :=
  match l with
  | [] => rest
  | a :: l' => put c a (putAll c l' rest)
  end.

Fixpoint takeN {A} (c : codec A) (n : nat) (input : bytes) : option (list A * bytes) :=
  match n with
  | O => Some ([], input)
  | S n' =>
      match take c input with
      | Some (a, mid) =>
          match takeN c n' mid with
          | Some (l, remaining) => Some (a :: l, remaining)
          | None => None
          end
      | None => None
      end
  end.

Fixpoint takeUnary (input : bytes) : option (nat * bytes) :=
  match input with
  | [] => None
  | tag :: after =>
      if Byte.eqb tag x00 then Some (O, after)
      else
        match takeUnary after with
        | Some (n, remaining) => Some (S n, remaining)
        | None => None
        end
  end.

Definition listC {A} (c : codec A) : codec (list A) :=
  {| put := fun l rest => repeat x01 (length l) ++ x00 :: putAll c l rest;
     take := fun input =>
       match takeUnary input with
       | Some (n, after) => takeN c n after
       | None => None
       end |}.

(** A codec for [A] through a codec for its tuple of fields. *)
Definition viaC {A B} (c : codec B) (f : A -> B) (g : B -> A) : codec A :=
  {| put := fun a rest => put c (f a) rest;
     take := fun input =>
       match take c input with
       | Some (b, remaining) => Some (g b, remaining)
       | None => None
       end |}.

(** A whole message: nothing may be left over. *)
Definition parse {A} (c : codec A) (input : bytes) : Result A :=
  match take c input with
  | Some (a, []) => Ok a
  | _ => Err (External "malformed message")
  end.

Definition publicKeyC : codec PublicKey.t :=
  viaC (pairC bytesC (optionC bytesC))
       (fun k => (PublicKey.point k, PublicKey.signature k))
       (fun p => PublicKey.mk (fst p) (snd p)).

Definition privateKeyC : codec PrivateKey.t :=
  viaC (pairC bytesC publicKeyC)
       (fun k => (PrivateKey.secret k, PrivateKey.publicKey k))
       (fun p => PrivateKey.mk (fst p) (snd p)).

Definition bundleC : codec PrivateKeyBundle.t :=
  viaC (pairC (optionC privateKeyC) (listC privateKeyC))
       (fun b => (PrivateKeyBundle.identityKey b, PrivateKeyBundle.preKeys b))
       (fun p => PrivateKeyBundle.mk (fst p) (snd p)).

Definition aeadC : codec Ciphertext.Aes256gcmHkdfsha256 :=
  viaC (pairC bytesC (pairC bytesC bytesC))
       (fun a => (Ciphertext.hkdfSalt a, (Ciphertext.gcmNonce a, Ciphertext.payload a)))
       (fun p => Ciphertext.mkAes (fst p) (fst (snd p)) (snd (snd p))).

Definition ciphertextC : codec Ciphertext.t :=
  viaC (optionC aeadC) Ciphertext.aes256GcmHkdfSha256 Ciphertext.mk.

Definition envelopeC : codec EncryptedPrivateKeyBundle.t :=
  viaC (pairC (optionC bytesC) (optionC ciphertextC))
       (fun e => (EncryptedPrivateKeyBundle.walletPreKey e,
                  EncryptedPrivateKeyBundle.ciphertext e))
       (fun p => EncryptedPrivateKeyBundle.mk (fst p) (snd p)).

#[export] Instance storage : PrivateKeyBundle.Storage := {|
  PrivateKeyBundle.encrypt := seal;
  PrivateKeyBundle.decrypt := unseal;
  PrivateKeyBundle.encodePrivateKeyBundle := fun b => put bundleC b [];
  PrivateKeyBundle.decodePrivateKeyBundle := parse bundleC;
  PrivateKeyBundle.encodeEncryptedPrivateKeyBundle := fun e => put envelopeC e [];
  PrivateKeyBundle.decodeEncryptedPrivateKeyBundle := parse envelopeC
|}.

(** Reading what was written gives the value and what followed it. *)
Definition lawful {A} (c : codec A) : Prop :=
  forall a rest, take c (put c a rest) = Some (a, rest).

(** *** Sample values *)

Definition w0 : world := {| entropy := 0; locked := false |}.
Definition w5 : world := {| entropy := 5; locked := false |}.
Definition stuck : world := {| entropy := 2; locked := true |}.
Definition wallet : bytes := [x77].

Definition key (s p : byte) (sig : option bytes) : PrivateKey.t :=
  {| PrivateKey.secret := [s];
     PrivateKey.publicKey :=
       {| PublicKey.point := [p]; PublicKey.signature := sig |} |}.

(** What [generate] returns in [w0] and in [w5]. *)
Definition alice : PrivateKeyBundle.t :=
  {| PrivateKeyBundle.identityKey := Some (key x01 x06 None);
     PrivateKeyBundle.preKeys := [key x02 x24 (Some [x06; x24])] |}.

Definition bob : PrivateKeyBundle.t :=
  {| PrivateKeyBundle.identityKey := Some (key x06 xdd None);
     PrivateKeyBundle.preKeys := [key x07 x47 (Some [xdd; x47])] |}.

(** [alice] after one more [addPreKey], called where [generate] left
    the world. *)
Definition w2 : world := {| entropy := 2; locked := false |}.
Definition w3 : world := {| entropy := 3; locked := false |}.

Definition aliceRotated : PrivateKeyBundle.t :=
  {| PrivateKeyBundle.identityKey := Some (key x01 x06 None);
     PrivateKeyBundle.preKeys :=
       [key x03 xd8 (Some [x06; xd8]); key x02 x24 (Some [x06; x24])] |}.

(** A bundle with an identity key and no pre-key, as the constructor
    builds it when [preKeys] is omitted. *)
Definition bare : PrivateKeyBundle.t :=
  PrivateKeyBundle.new (Some (key x01 x06 None)) None.

Definition publicBundle (b : PrivateKeyBundle.t) : PublicKeyBundle.t :=
  {| PublicKeyBundle.identityKey :=
       option_map PrivateKey.publicKey (PrivateKeyBundle.identityKey b);
     PublicKeyBundle.preKey :=
       option_map PrivateKey.publicKey (hd_error (PrivateKeyBundle.preKeys b)) |}.

(** A bundle with neither identity key nor pre-key. *)
Definition hollow : PrivateKeyBundle.t :=
  {| PrivateKeyBundle.identityKey := None; PrivateKeyBundle.preKeys := [] |}.

(** A stored envelope with neither wallet pre-key nor ciphertext. *)
Definition emptyEnvelope : bytes :=
  put envelopeC
      {| EncryptedPrivateKeyBundle.walletPreKey := None;
         EncryptedPrivateKeyBundle.ciphertext := None |} [].

(** A stored envelope with a wallet pre-key and no ciphertext. *)
Definition unsealedEnvelope : bytes :=
  put envelopeC
      {| EncryptedPrivateKeyBundle.walletPreKey := Some [x2a];
         EncryptedPrivateKeyBundle.ciphertext := None |} [].

(** A stored envelope, sealed for [wallet], whose inner bundle is
    [hollow]. *)
Definition hollowEnvelope : bytes :=
  put envelopeC
      {| EncryptedPrivateKeyBundle.walletPreKey := Some [x2a];
         EncryptedPrivateKeyBundle.ciphertext :=
           Some {| Ciphertext.aes256GcmHkdfSha256 :=
                     Some {| Ciphertext.hkdfSalt := [x77; x2a];
                             Ciphertext.gcmNonce := [x00];
                             Ciphertext.payload := put bundleC hollow [] |} |} |} [].
(** The reader and writer of [PublicKey] for the content codec. *)
#[export] Instance wire : TestKeyCodec.Wire := {|
  TestKeyCodec.encodePublicKey := fun k => put publicKeyC k [];
  TestKeyCodec.decodePublicKey := parse publicKeyC
|}.

(** [bob] after one more [addPreKey], called where [generate] left the
    world. *)
Definition w7 : world := {| entropy := 7; locked := false |}.
Definition w8 : world := {| entropy := 8; locked := false |}.

Definition bobRotated : PrivateKeyBundle.t :=
  {| PrivateKeyBundle.identityKey := Some (key x06 xdd None);
     PrivateKeyBundle.preKeys :=
       [key x08 xaf (Some [xdd; xaf]); key x07 x47 (Some [xdd; x47])] |}.

(** A bundle that has a pre-key and no identity key. *)
Definition headless : PrivateKeyBundle.t :=
  {| PrivateKeyBundle.identityKey := None;
     PrivateKeyBundle.preKeys := [key x02 x24 (Some [x06; x24])] |}.

(** A second wallet. *)
Definition otherWallet : bytes := [x78].

(** What [encode] writes for [alice] with [wallet] in [w2]. *)
Definition aliceStored : bytes :=
  put envelopeC
      {| EncryptedPrivateKeyBundle.walletPreKey := Some (repeat x02 32);
         EncryptedPrivateKeyBundle.ciphertext :=
           Some {| Ciphertext.aes256GcmHkdfSha256 :=
                     Some {| Ciphertext.hkdfSalt := x77 :: repeat x02 32;
                             Ciphertext.gcmNonce := [x03];
                             Ciphertext.payload := put bundleC alice [] |} |} |} [].
End Toy.

(** ** Vocabulary of the statements

    What the properties below say about keys, about runs of [addPreKey]
    and about the collaborators. *)

Section Vocabulary.
Context {P : Platform}.

(** A key as [PrivateKey.generate] makes it: the public point is derived
    from the secret. *)
Definition derived (key : PrivateKey.t) : Prop :=
  PublicKey.point (PrivateKey.publicKey key) = getPublicKey (PrivateKey.secret key).

(** Zero or more successful calls of [addPreKey], one after the other. *)
Inductive rotations
  : PrivateKeyBundle.t * World -> PrivateKeyBundle.t * World -> Prop :=
| rotations_none s : rotations s s
| rotations_more s s' s'' :
    rotations s s' ->
    PrivateKeyBundle.addPreKey s' = (Ok tt, s'') ->
    rotations s s''.

(** The three checks that open [sharedSecret]. *)
Definition passesValidation (this : PrivateKeyBundle.t) (peer : PublicKeyBundle.t)
  : bool :=
  match PublicKeyBundle.identityKey peer, PublicKeyBundle.preKey peer,
        PrivateKeyBundle.identityKey this with
  | Some peerIdentityKey, Some peerPreKey, Some _ =>
      PublicKey.verifyKey peerIdentityKey peerPreKey
  | _, _, _ => false
  end.

(** Diffie-Hellman is commutative: combining [a] with the point of [b]
    gives what combining [b] with the point of [a] gives. *)
Definition commutative : Prop :=
  forall a b : bytes,
    getSharedSecret a (getPublicKey b) = getSharedSecret b (getPublicKey a).

(** A signature made with a secret verifies under its public point. *)
Definition soundSignatures : Prop :=
  forall (s m sig : bytes) (w w' : World),
    sign s m w = (Ok sig, w') -> verify (getPublicKey s) m sig = true.

(** The wallet answers the same message the same way whenever asked. *)
Definition deterministic (wallet : Signer) : Prop :=
  forall (m : bytes) (w1 w2 : World),
    fst (signMessage wallet m w1) = fst (signMessage wallet m w2).

Context {St : PrivateKeyBundle.Storage}.

(** Reading back what the protobuf writers wrote gives the message. *)
Definition faithfulCodec : Prop :=
  (forall b, PrivateKeyBundle.decodePrivateKeyBundle
               (PrivateKeyBundle.encodePrivateKeyBundle b) = Ok b) /\
  (forall e, PrivateKeyBundle.decodeEncryptedPrivateKeyBundle
               (PrivateKeyBundle.encodeEncryptedPrivateKeyBundle e) = Ok e).

(** The AEAD writes the recognised variant, and decrypting under the key
    that encrypted gives the plaintext back. *)
Definition correctCipher : Prop :=
  forall (plain key : bytes) (w w' : World) (c : Ciphertext.t),
    PrivateKeyBundle.encrypt plain key w = (Ok c, w') ->
    Ciphertext.aes256GcmHkdfSha256 c <> None /\
    forall w2, exists w3, PrivateKeyBundle.decrypt c key w2 = (Ok plain, w3).

(** The collaborators of [encode] answer: the random source gives bytes,
    the wallet signs, the AEAD encrypts. *)
Definition available (wallet : Signer) : Prop :=
  (forall n w, exists r w', getRandomValues n w = (Ok r, w')) /\
  (forall m w, exists sig w', signMessage wallet m w = (Ok sig, w')) /\
  (forall plain key w, exists c w', PrivateKeyBundle.encrypt plain key w = (Ok c, w')).
(** The world in which [generate] calls [addPreKey]: the one the identity
    key's draw left, after the wallet was asked if there is one. *)
Definition afterAttestation (wallet : option Signer) (s0 : bytes) (w1 : World) : World :=
  match wallet with
  | Some wl => snd (signMessage wl (getPublicKey s0) w1)
  | None => w1
  end.

(** A bundle that can stand for its owner: it has an identity key with a
    derived public point, at least one pre-key, and every pre-key has a
    derived public point and a signature that verifies under the identity
    key. *)
Definition vouched (b : PrivateKeyBundle.t) : Prop :=
  exists idKey,
    PrivateKeyBundle.identityKey b = Some idKey /\
    derived idKey /\
    PrivateKeyBundle.preKeys b <> [] /\
    forall k, In k (PrivateKeyBundle.preKeys b) ->
              derived k /\
              PublicKey.verifyKey (PrivateKey.publicKey idKey)
                                  (PrivateKey.publicKey k) = true.

(** The AEAD authenticates: what was encrypted under one key is refused
    under any other. *)
Definition authenticating : Prop :=
  forall (plain key other : bytes) (w w' : World) (c : Ciphertext.t),
    PrivateKeyBundle.encrypt plain key w = (Ok c, w') ->
    other <> key ->
    forall w2, exists e w3, PrivateKeyBundle.decrypt c other w2 = (Err e, w3).

(** Two wallets never give signatures that yield the same key bytes. *)
Definition distinctWallets (wallet other : Signer) : Prop :=
  forall (m : bytes) (sig sig' : string) (wa wa' wb wb' : World),
    signMessage wallet m wa = (Ok sig, wa') ->
    signMessage other m wb = (Ok sig', wb') ->
    hexToBytes sig <> hexToBytes sig'.
End Vocabulary.

(** * Properties *)

Import PrivateKeyBundle.

(** ** Bytes and arrays *)

Lemma bytes_eqb_refl (a : bytes) : bytes_eqb a a = true.
Proof.
  induction a as [|x a IH]; simpl; trivial.
  rewrite (Byte.byte_dec_lb (eq_refl x)), IH. reflexivity.
Qed.

Lemma bytes_eqb_eq (a b : bytes) : bytes_eqb a b = true <-> a = b.
Proof.
  split.
  - revert b. induction a as [|x a IH]; intros [|y b] H; simpl in H;
      try discriminate; trivial.
    apply andb_true_iff in H. destruct H as [Hx Hab].
    apply Byte.byte_dec_bl in Hx. apply IH in Hab. congruence.
  - intros ->. apply bytes_eqb_refl.
Qed.

Lemma firstn_exact {A} (l r : list A) : firstn (length l) (l ++ r) = l.
Proof. induction l; simpl; congruence. Qed.

Lemma skipn_exact {A} (l r : list A) : skipn (length l) (l ++ r) = r.
Proof. induction l; simpl; congruence. Qed.

(** Writing [src] over a hole of its size, between [pre] and [post]. *)
Lemma Uint8Array_set_hole (pre hole post src : bytes) :
  length hole = length src ->
  Uint8Array_set (pre ++ hole ++ post) src (length pre) = Ok (pre ++ src ++ post).
Proof.
  intros Hlen. unfold Uint8Array_set.
  assert (Hfit : (length pre + length src <=? length (pre ++ hole ++ post)) = true).
  { apply Nat.leb_le. rewrite !length_app. lia. }
  rewrite Hfit, firstn_exact.
  replace (length pre + length src) with (length (pre ++ hole))
    by (rewrite length_app; lia).
  rewrite (app_assoc pre hole post), skipn_exact. reflexivity.
Qed.

Lemma concat3_app (dh1 dh2 dh3 : bytes) :
  concat3 dh1 dh2 dh3 = Ok (dh1 ++ dh2 ++ dh3).
Proof.
  unfold concat3, Uint8Array_new.
  rewrite <- Nat.add_assoc, !repeat_app.
  pose proof (Uint8Array_set_hole [] (repeat x00 (length dh1))
                (repeat x00 (length dh2) ++ repeat x00 (length dh3)) dh1
                (repeat_length _ _)) as H1.
  cbn [app length] in H1. rewrite H1. cbn [rbind].
  rewrite (Uint8Array_set_hole dh1 (repeat x00 (length dh2)) _ dh2)
    by apply repeat_length.
  cbn [rbind].
  pose proof (Uint8Array_set_hole (dh1 ++ dh2) (repeat x00 (length dh3)) [] dh3
                (repeat_length _ _)) as H3.
  rewrite !app_nil_r, <- !app_assoc, length_app in H3.
  rewrite H3. reflexivity.
Qed.

(** ** Keys *)

Lemma matches_own (key : PrivateKey.t) :
  PrivateKey.matches key (PrivateKey.publicKey key) = true.
Proof. apply bytes_eqb_refl. Qed.

Lemma PublicKey_new_id (k : PublicKey.t) : PublicKey.new k = k.
Proof. destruct k; reflexivity. Qed.

Lemma PrivateKey_new_id (k : PrivateKey.t) : PrivateKey.new k = k.
Proof. destruct k as [s p]; unfold PrivateKey.new; simpl. now rewrite PublicKey_new_id. Qed.

Lemma map_PrivateKey_new (l : list PrivateKey.t) : map PrivateKey.new l = l.
Proof. induction l; simpl; [|rewrite PrivateKey_new_id, IHl]; reflexivity. Qed.

Lemma Ciphertext_new_id (c : Ciphertext.t) : Ciphertext.new c = c.
Proof. destruct c; reflexivity. Qed.

(** ** Running a method: inversion of the monad *)

Lemma bind_Ok {S A B} (m : M S A) (k : A -> M S B) s b s' :
  bind m k s = (Ok b, s') ->
  exists a s1, m s = (Ok a, s1) /\ k a s1 = (Ok b, s').
Proof.
  unfold bind. destruct (m s) as [[a|e] s1]; intros H; [eauto | discriminate].
Qed.

Lemma bind_step {S A B} (m : M S A) (k : A -> M S B) s a s1 :
  m s = (Ok a, s1) -> bind m k s = k a s1.
Proof. unfold bind. now intros ->. Qed.

Lemma bind_fail {S A B} (m : M S A) (k : A -> M S B) s e s1 :
  m s = (Err e, s1) -> bind m k s = (Err e, s1).
Proof. unfold bind. now intros ->. Qed.

Lemma inWorld_run {T W A} (m : M W A) (this : T) (w : W) :
  inWorld m (this, w) = (fst (m w), (this, snd (m w))).
Proof. unfold inWorld. simpl. now destruct (m w). Qed.

(** ** [addPreKey] and [generate] *)

Section Rotation.
Context {P : Platform}.

(** The complete behaviour of a successful [addPreKey]: a scalar was
    drawn, the identity key signed its point, and the signed key is the
    new head of the list. *)
Lemma addPreKey_Ok (this this' : t) (w w' : World) :
  addPreKey (this, w) = (Ok tt, (this', w')) ->
  exists s w1 id sig,
    randomPrivateKey w = (Ok s, w1) /\
    identityKey this = Some id /\
    sign (PrivateKey.secret id) (getPublicKey s) w1 = (Ok sig, w') /\
    this' = unshift
              {| PrivateKey.secret := s;
                 PrivateKey.publicKey :=
                   {| PublicKey.point := getPublicKey s;
                      PublicKey.signature := Some sig |} |} this.
Proof.
  unfold addPreKey. intros H.
  apply bind_Ok in H. destruct H as (preKey & s1 & Hgen & H).
  rewrite inWorld_run in Hgen.
  unfold PrivateKey.generate, bind, ret in Hgen.
  destruct (randomPrivateKey w) as [[s|e] w1] eqn:Hs; simpl in Hgen; [|discriminate].
  injection Hgen as <- <-.
  apply bind_Ok in H. destruct H as (this0 & s2 & Hthis & H).
  unfold getThis in Hthis. injection Hthis as <- <-.
  apply bind_Ok in H. destruct H as (id & s3 & Hid & H).
  unfold lift, deref in Hid. simpl in Hid.
  destruct (identityKey this) as [id0|] eqn:Eid; [|discriminate].
  injection Hid as <- <-.
  apply bind_Ok in H. destruct H as (signed & s4 & Hsig & H).
  rewrite inWorld_run in Hsig.
  unfold PrivateKey.signKey, bind, ret in Hsig. simpl in Hsig.
  destruct (sign (PrivateKey.secret id0) (getPublicKey s) w1) as [[sig|e] w2] eqn:Hsg;
    simpl in Hsig; [|discriminate].
  injection Hsig as <- <-.
  unfold modifyThis in H. simpl in H. injection H as <- <-.
  exists s, w1, id0, sig. repeat split; trivial.
Qed.

(** A failing [addPreKey] never touches the bundle. *)
Lemma addPreKey_Err (this this' : t) (w w' : World) (e : Error) :
  addPreKey (this, w) = (Err e, (this', w')) -> this' = this.
Proof.
  unfold addPreKey, bind, getThis, lift, modifyThis. rewrite inWorld_run.
  destruct (PrivateKey.generate w) as [[preKey|e0] w1]; simpl.
  - destruct (identityKey this) as [id|]; simpl.
    + rewrite inWorld_run.
      destruct (PrivateKey.signKey id (PrivateKey.publicKey preKey) w1) as [[signed|e1] w2];
        simpl; intros H; [discriminate | now injection H].
    + intros H. now injection H.
  - intros H. now injection H.
Qed.

Lemma call_Ok {T A} (obj obj' : T) (m : M (T * World) A) (a : A) (w w' : World) :
  call obj m w = (Ok (a, obj'), w') -> m (obj, w) = (Ok a, (obj', w')).
Proof.
  unfold call. destruct (m (obj, w)) as [[a0|e] [o w1]]; intros H;
    [now injection H as -> -> -> | discriminate].
Qed.

(** What [generate] returns: an identity key and one pre-key, both with
    derived public points, the pre-key signed by the identity key. *)
Lemma generate_Ok (wallet : option Signer) (w w' : World) (b : t) :
  generate wallet w = (Ok b, w') ->
  exists id pre sig w1,
    identityKey b = Some id /\ preKeys b = [pre] /\
    derived id /\ derived pre /\
    PublicKey.signature (PrivateKey.publicKey pre) = Some sig /\
    sign (PrivateKey.secret id) (PublicKey.point (PrivateKey.publicKey pre)) w1
      = (Ok sig, w').
Proof.
  unfold generate. intros H.
  apply bind_Ok in H. destruct H as (id0 & w1 & Hid0 & H).
  unfold PrivateKey.generate in Hid0.
  apply bind_Ok in Hid0. destruct Hid0 as (s0 & w0' & Hs0 & Hret).
  unfold ret in Hret. injection Hret as <- <-.
  apply bind_Ok in H. destruct H as (id & w2 & Hid & H).
  assert (Hshape : PrivateKey.secret id = s0 /\
                   PublicKey.point (PrivateKey.publicKey id) = getPublicKey s0).
  { destruct wallet as [wl|].
    - apply bind_Ok in Hid. destruct Hid as (att & w3 & Hatt & Hret).
      unfold ret in Hret. injection Hret as <- <-.
      destruct att as [pub|]; simpl; auto.
      (* the attestation only fills the signature *)
      split; trivial.
      unfold floating, PublicKey.signWithWallet, bind, ret in Hatt. simpl in Hatt.
      destruct (signMessage wl (getPublicKey s0) w0') as [[sg|e] w4];
        [|discriminate].
      injection Hatt as Hpub _. rewrite <- Hpub. reflexivity.
    - unfold ret in Hid. injection Hid as <- <-. simpl. auto. }
  apply bind_Ok in H. destruct H as ([u b'] & w3 & Hcall & Hret).
  unfold ret in Hret. simpl in Hret. injection Hret as <- <-.
  apply call_Ok in Hcall. destruct u.
  apply addPreKey_Ok in Hcall.
  destruct Hcall as (s & w4 & id1 & sig & Hs & Hid1 & Hsig & ->).
  simpl in Hid1. injection Hid1 as <-.
  destruct Hshape as [Hsec Hpt].
  exists id, {| PrivateKey.secret := s;
                PrivateKey.publicKey :=
                  {| PublicKey.point := getPublicKey s;
                     PublicKey.signature := Some sig |} |}, sig, w4.
  unfold derived; simpl. rewrite Hpt. rewrite Hsec in *. repeat split; trivial.
Qed.

Lemma rotations_shape s s' :
  rotations s s' ->
  exists added,
    preKeys (fst s') = added ++ preKeys (fst s) /\
    identityKey (fst s') = identityKey (fst s).
Proof.
  induction 1 as [s | s [mid wm] [this'' w''] _ IH Hstep].
  - exists []. auto.
  - destruct IH as (added & Hkeys & Hid).
    apply addPreKey_Ok in Hstep.
    destruct Hstep as (sc & w1 & id & sig & _ & _ & _ & ->).
    simpl in *. rewrite Hkeys, Hid.
    eexists (_ :: added). split; reflexivity.
Qed.

Lemma find_skips {A} (f : A -> bool) (front back : list A) :
  (forall a, In a front -> f a = false) ->
  find f (front ++ back) = find f back.
Proof.
  induction front as [|a front IH]; intros Hf; simpl; trivial.
  rewrite (Hf a (or_introl eq_refl)). apply IH. intros; apply Hf; now right.
Qed.

Lemma findPreKey_matches (this : t) (p : PublicKey.t) (k : PrivateKey.t) :
  findPreKey this p = Ok k -> PrivateKey.matches k p = true /\ In k (preKeys this).
Proof.
  unfold findPreKey.
  destruct (find _ (preKeys this)) as [k0|] eqn:Hfind; intros H; [|discriminate].
  injection H as <-. apply find_some in Hfind. tauto.
Qed.
(** With a random source and an identity signer that answer, [addPreKey]
    and [generate] return. *)
Lemma addPreKey_returns (this : t) (idKey : PrivateKey.t) (w : World) :
  (forall w, exists s w', randomPrivateKey w = (Ok s, w')) ->
  (forall s m w, exists sig w', sign s m w = (Ok sig, w')) ->
  identityKey this = Some idKey ->
  exists this' w', addPreKey (this, w) = (Ok tt, (this', w')).
Proof.
  intros Hrand Hsign Hid.
  destruct (Hrand w) as (s & w1 & Hs).
  destruct (Hsign (PrivateKey.secret idKey) (getPublicKey s) w1) as (sig & w2 & Hsig).
  unfold addPreKey.
  erewrite bind_step
    by (rewrite inWorld_run; unfold PrivateKey.generate, bind, ret; rewrite Hs;
        reflexivity).
  erewrite bind_step by reflexivity.
  erewrite bind_step by (unfold lift; simpl; rewrite Hid; reflexivity).
  erewrite bind_step
    by (rewrite inWorld_run; unfold PrivateKey.signKey, bind, ret; simpl;
        rewrite Hsig; reflexivity).
  unfold modifyThis. simpl. eauto.
Qed.

Lemma generate_returns (wallet : option Signer) (w : World) :
  (forall w, exists s w', randomPrivateKey w = (Ok s, w')) ->
  (forall s m w, exists sig w', sign s m w = (Ok sig, w')) ->
  exists b w', generate wallet w = (Ok b, w').
Proof.
  intros Hrand Hsign.
  destruct (Hrand w) as (s0 & w1 & Hs0).
  assert (Hcall : forall idKey wx,
             exists b w', (done <- call (new (Some idKey) None) addPreKey ;;
                           ret (snd done)) wx = (Ok b, w')).
  { intros idKey wx.
    destruct (@addPreKey_returns (new (Some idKey) None) idKey wx Hrand Hsign eq_refl)
      as (b & w' & Hadd).
    exists b, w'. unfold bind, call, ret. now rewrite Hadd. }
  unfold generate.
  erewrite bind_step
    by (unfold PrivateKey.generate, bind, ret; rewrite Hs0; reflexivity).
  destruct wallet as [wl|].
  - unfold bind at 1. unfold bind at 1. unfold floating.
    destruct (PublicKey.signWithWallet _ wl w1) as [[pub|e] w1']; unfold ret;
      apply Hcall.
  - unfold bind at 1. unfold ret at 1. apply Hcall.
Qed.

(** C6 -- Generation invariants.  A bundle returned by [generate] holds
    exactly one pre-key.  A call of [addPreKey] that returns leaves at
    index 0 the key it has just generated (its secret is the scalar the
    call drew, its point is derived from it), and every key held before
    is found one index higher, so in the same relative order.  Both calls
    do return whenever the random source and the identity key's signer
    answer ([addPreKey] on a bundle that has its identity key). *)
Theorem generation_invariants :
  (forall (wallet : option Signer) (w w' : World) (b : t),
      generate wallet w = (Ok b, w') -> length (preKeys b) = 1) /\
  (forall (wallet : option Signer) (w : World),
      (forall w, exists s w', randomPrivateKey w = (Ok s, w')) ->
      (forall s m w, exists sig w', sign s m w = (Ok sig, w')) ->
      exists b w', generate wallet w = (Ok b, w')) /\
  (forall (this this' : t) (w w' : World),
      addPreKey (this, w) = (Ok tt, (this', w')) ->
      exists (preKey : PrivateKey.t) (s : bytes) (w1 : World),
        randomPrivateKey w = (Ok s, w1) /\
        PrivateKey.secret preKey = s /\ derived preKey /\
        nth_error (preKeys this') 0 = Some preKey /\
        (forall i, nth_error (preKeys this') (S i) = nth_error (preKeys this) i) /\
        length (preKeys this') = S (length (preKeys this))) /\
  (forall (this : t) (idKey : PrivateKey.t) (w : World),
      (forall w, exists s w', randomPrivateKey w = (Ok s, w')) ->
      (forall s m w, exists sig w', sign s m w = (Ok sig, w')) ->
      identityKey this = Some idKey ->
      exists this' w', addPreKey (this, w) = (Ok tt, (this', w'))).
Proof.
  split; [|split; [|split]].
  - intros wallet w w' b H. apply generate_Ok in H.
    destruct H as (id & pre & sig & w1 & _ & -> & _). reflexivity.
  - intros wallet w. apply generate_returns.
  - intros this this' w w' H. apply addPreKey_Ok in H.
    destruct H as (s & w1 & id & sig & Hs & _ & _ & ->).
    exists (PrivateKey.mk s (PublicKey.mk (getPublicKey s) (Some sig))), s, w1.
    split; [exact Hs|].
    split; [reflexivity|]. split; [reflexivity|].
    simpl. auto.
  - intros this idKey w Hrand Hsign Hid. now apply addPreKey_returns with idKey.
Qed.

(** C9 -- [addPreKey] commits last.  When a pre-key has been generated
    and the identity key's signature over it fails (or is cancelled) with
    [e], the call fails with [e] and the bundle it leaves is the one it
    started from: the list of pre-keys is untouched, no key was added. *)
Theorem addPreKey_commits_last
        (this : t) (w w1 w2 : World) (preKey idKey : PrivateKey.t) (e : Error) :
  PrivateKey.generate w = (Ok preKey, w1) ->
  identityKey this = Some idKey ->
  PrivateKey.signKey idKey (PrivateKey.publicKey preKey) w1 = (Err e, w2) ->
  addPreKey (this, w) = (Err e, (this, w2)).
Proof.
  intros Hgen Hid Hsig. unfold addPreKey.
  erewrite bind_step by (rewrite inWorld_run, Hgen; reflexivity).
  erewrite bind_step by reflexivity.
  erewrite bind_step by (unfold lift; simpl; rewrite Hid; reflexivity).
  erewrite bind_fail by (rewrite inWorld_run, Hsig; reflexivity).
  reflexivity.
Qed.

(** Whatever the rotations added, a public pre-key that was matched before
    is matched after: [findPreKey] does not fail for it. *)
Lemma findPreKey_survives (s s' : t * World) (p : PublicKey.t) (old : PrivateKey.t) :
  rotations s s' ->
  findPreKey (fst s) p = Ok old ->
  exists k, findPreKey (fst s') p = Ok k /\ PrivateKey.matches k p = true.
Proof.
  intros Hrot Hold.
  destruct (rotations_shape Hrot) as (added & Hkeys & _).
  apply findPreKey_matches in Hold. destruct Hold as [Hm Hin].
  unfold findPreKey. rewrite Hkeys.
  destruct (find (fun key => PrivateKey.matches key p) (added ++ preKeys (fst s)))
    as [k|] eqn:Hfind.
  - exists k. split; [reflexivity|]. now apply find_some in Hfind.
  - exfalso.
    assert (Hno : PrivateKey.matches old p = false).
    { apply (find_none _ _ Hfind old). apply in_or_app. now right. }
    rewrite Hm in Hno. discriminate.
Qed.

(** C7 -- Rotation survivability.  Let a bundle go through one or more
    successful [addPreKey] calls, the last of them from [mid], and let
    [added] be the keys these calls put in front.  For a public pre-key
    [p] that [findPreKey] resolved to [old] before, and which none of the
    freshly generated keys matches, [findPreKey p] still returns [old],
    [sharedSecret] with [p] as [recipientPreKey] gives what it gave
    before, and [getCurrentPreKey] returns the key generated by the most
    recent call, which is not [old]. *)
Theorem rotation_survivability
        (this this' : t) (w w' : World) (mid : t * World)
        (added : list PrivateKey.t) (p : PublicKey.t) (old : PrivateKey.t) :
  rotations (this, w) mid ->
  addPreKey mid = (Ok tt, (this', w')) ->
  preKeys this' = added ++ preKeys this ->
  (forall k, In k added -> PrivateKey.matches k p = false) ->
  findPreKey this p = Ok old ->
  findPreKey this' p = Ok old /\
  (forall peer, sharedSecret this' peer (Some p) = sharedSecret this peer (Some p)) /\
  exists (newest : PrivateKey.t) (s : bytes) (w1 : World),
    randomPrivateKey (snd mid) = (Ok s, w1) /\
    PrivateKey.secret newest = s /\
    getCurrentPreKey this' = Some newest /\
    newest <> old.
Proof.
  intros Hrot Hlast Hkeys Hfresh Hold.
  assert (Hfind : findPreKey this' p = Ok old).
  { unfold findPreKey in *. rewrite Hkeys, find_skips by exact Hfresh. exact Hold. }
  assert (Hid : identityKey this' = identityKey this).
  { destruct (rotations_shape (rotations_more Hrot Hlast)) as (added' & _ & Hid).
    exact Hid. }
  split; [exact Hfind|]. split.
  - intros peer. unfold sharedSecret. rewrite Hid, Hfind, Hold. reflexivity.
  - destruct mid as [bm wm].
    destruct (rotations_shape Hrot) as (before & Hmid & _). simpl in Hmid.
    apply addPreKey_Ok in Hlast.
    destruct Hlast as (s & w1 & id & sig & Hs & _ & _ & ->).
    simpl in Hkeys. rewrite Hmid in Hkeys.
    change (?k :: before ++ preKeys this) with ((k :: before) ++ preKeys this) in Hkeys.
    apply app_inv_tail in Hkeys. subst added.
    exists (PrivateKey.mk s (PublicKey.mk (getPublicKey s) (Some sig))), s, w1.
    split; [exact Hs|]. split; [reflexivity|].
    split; [reflexivity|].
    intros Heq. apply findPreKey_matches in Hold. destruct Hold as [Hm _].
    rewrite <- Heq in Hm. rewrite (Hfresh _ (or_introl eq_refl)) in Hm.
    discriminate.
Qed.
End Rotation.

(** ** [sharedSecret] *)

Section Agreement.
Context {P : Platform}.

(** C3 -- Order of the validation checks.  A peer bundle without identity
    key or without pre-key is rejected with [InvalidPeerBundle]; otherwise
    a pre-key whose signature does not verify under the peer's identity
    key is rejected with [PreKeySignatureInvalid]; otherwise a missing
    local identity key is rejected with [MissingIdentityKey]; and a secret
    is returned only when the three checks have passed.  None of the three
    failures depends on the pre-keys held or on [recipientPreKey]: they
    are raised before any Diffie-Hellman combination. *)
Theorem sharedSecret_validation_order
        (this : t) (peer : PublicKeyBundle.t) (recipientPreKey : option PublicKey.t) :
  (PublicKeyBundle.identityKey peer = None \/ PublicKeyBundle.preKey peer = None ->
   sharedSecret this peer recipientPreKey = Err InvalidPeerBundle) /\
  (forall peerIdentityKey peerPreKey,
      PublicKeyBundle.identityKey peer = Some peerIdentityKey ->
      PublicKeyBundle.preKey peer = Some peerPreKey ->
      PublicKey.verifyKey peerIdentityKey peerPreKey = false ->
      sharedSecret this peer recipientPreKey = Err PreKeySignatureInvalid) /\
  (forall peerIdentityKey peerPreKey,
      PublicKeyBundle.identityKey peer = Some peerIdentityKey ->
      PublicKeyBundle.preKey peer = Some peerPreKey ->
      PublicKey.verifyKey peerIdentityKey peerPreKey = true ->
      identityKey this = None ->
      sharedSecret this peer recipientPreKey = Err MissingIdentityKey) /\
  (forall secret,
      sharedSecret this peer recipientPreKey = Ok secret ->
      passesValidation this peer = true).
Proof.
  unfold sharedSecret, passesValidation.
  repeat split.
  - intros [H|H]; rewrite H; [|destruct (PublicKeyBundle.identityKey peer)]; reflexivity.
  - intros pid ppre -> -> Hv. now rewrite Hv.
  - intros pid ppre -> -> Hv Hid. now rewrite Hv, Hid.
  - intros secret.
    destruct (PublicKeyBundle.identityKey peer) as [pid|]; [|discriminate].
    destruct (PublicKeyBundle.preKey peer) as [ppre|]; [|discriminate].
    destruct (PublicKey.verifyKey pid ppre); [|discriminate].
    destruct (identityKey this); [reflexivity|discriminate].
Qed.

(** After the checks, the outcome is decided by the selection of the
    local pre-key alone: with a key selected, the secret is the three
    combinations in the order of the caller's role. *)
Lemma sharedSecret_run
      (this : t) (peer : PublicKeyBundle.t) (recipientPreKey : option PublicKey.t)
      (peerIdentityKey peerPreKey : PublicKey.t) (idKey preKey : PrivateKey.t) :
  PublicKeyBundle.identityKey peer = Some peerIdentityKey ->
  PublicKeyBundle.preKey peer = Some peerPreKey ->
  PublicKey.verifyKey peerIdentityKey peerPreKey = true ->
  identityKey this = Some idKey ->
  match recipientPreKey with
  | Some which => findPreKey this which = Ok preKey
  | None => getCurrentPreKey this = Some preKey
  end ->
  sharedSecret this peer recipientPreKey =
  Ok (match recipientPreKey with
      | Some _ => PrivateKey.sharedSecret preKey peerIdentityKey
      | None => PrivateKey.sharedSecret idKey peerPreKey
      end ++
      match recipientPreKey with
      | Some _ => PrivateKey.sharedSecret idKey peerPreKey
      | None => PrivateKey.sharedSecret preKey peerIdentityKey
      end ++
      PrivateKey.sharedSecret preKey peerPreKey).
Proof.
  intros Hpid Hppre Hv Hid Hsel. unfold sharedSecret.
  rewrite Hpid, Hppre, Hv, Hid. cbn [negb].
  destruct recipientPreKey as [which|]; rewrite Hsel; cbn [rbind deref];
    apply concat3_app.
Qed.

(** With no key selected, the call fails after the checks: with
    [PreKeyNotFound] for a recipient, on [undefined] for a sender. *)
Lemma sharedSecret_no_selection
      (this : t) (peer : PublicKeyBundle.t) (recipientPreKey : option PublicKey.t) :
  passesValidation this peer = true ->
  match recipientPreKey with
  | Some which => findPreKey this which = Err PreKeyNotFound
  | None => getCurrentPreKey this = None
  end ->
  sharedSecret this peer recipientPreKey =
  Err (match recipientPreKey with Some _ => PreKeyNotFound | None => TypeError end).
Proof.
  unfold passesValidation, sharedSecret.
  destruct (PublicKeyBundle.identityKey peer) as [pid|]; [|discriminate].
  destruct (PublicKeyBundle.preKey peer) as [ppre|]; [|discriminate].
  destruct (identityKey this) as [id|]; [|discriminate].
  intros -> Hsel. cbn [negb].
  destruct recipientPreKey; rewrite Hsel; reflexivity.
Qed.

(** C2, as amended -- For every call that passes the three checks and
    for which the local pre-key is there (the key [findPreKey] returns for
    [recipientPreKey] in the recipient role, the current pre-key in the
    sender role), the result is [dh1 ++ dh2 ++ dh3] with, for a sender,
    [dh1 = identity x peerPreKey] and [dh2 = preKey x peerIdentityKey],
    for a recipient, [dh1 = preKey x peerIdentityKey] and
    [dh2 = identity x peerPreKey], and in both roles
    [dh3 = preKey x peerPreKey]. *)
Theorem sharedSecret_concatenation
        (this : t) (peer : PublicKeyBundle.t) (recipientPreKey : option PublicKey.t)
        (peerIdentityKey peerPreKey : PublicKey.t) (idKey preKey : PrivateKey.t) :
  PublicKeyBundle.identityKey peer = Some peerIdentityKey ->
  PublicKeyBundle.preKey peer = Some peerPreKey ->
  PublicKey.verifyKey peerIdentityKey peerPreKey = true ->
  identityKey this = Some idKey ->
  match recipientPreKey with
  | Some which => findPreKey this which = Ok preKey
  | None => getCurrentPreKey this = Some preKey
  end ->
  sharedSecret this peer recipientPreKey =
  Ok (match recipientPreKey with
      | Some _ => PrivateKey.sharedSecret preKey peerIdentityKey
      | None => PrivateKey.sharedSecret idKey peerPreKey
      end ++
      match recipientPreKey with
      | Some _ => PrivateKey.sharedSecret idKey peerPreKey
      | None => PrivateKey.sharedSecret preKey peerIdentityKey
      end ++
      PrivateKey.sharedSecret preKey peerPreKey).
Proof. exact (@sharedSecret_run this peer recipientPreKey
                peerIdentityKey peerPreKey idKey preKey). Qed.

(** Two bundles that can be advertised agree: the sender's secret against
    the recipient's public bundle is the recipient's secret against the
    sender's public bundle when the recipient names its own pre-key, the
    one the sender combined with. *)
Lemma agreement (A B : t) (idA preA idB preB : PrivateKey.t)
      (restA restB : list PrivateKey.t) :
  commutative ->
  identityKey A = Some idA -> preKeys A = preA :: restA ->
  derived idA -> derived preA ->
  PublicKey.verifyKey (PrivateKey.publicKey idA) (PrivateKey.publicKey preA) = true ->
  identityKey B = Some idB -> preKeys B = preB :: restB ->
  derived idB -> derived preB ->
  PublicKey.verifyKey (PrivateKey.publicKey idB) (PrivateKey.publicKey preB) = true ->
  exists secret,
    sharedSecret A (PublicKeyBundle.new (PrivateKey.publicKey idB)
                                        (PrivateKey.publicKey preB)) None
      = Ok secret /\
    sharedSecret B (PublicKeyBundle.new (PrivateKey.publicKey idA)
                                        (PrivateKey.publicKey preA))
                 (Some (PrivateKey.publicKey preB))
      = Ok secret.
Proof.
  intros Hdh HidA HkA DidA DpreA HvA HidB HkB DidB DpreB HvB.
  assert (HcurA : getCurrentPreKey A = Some preA)
    by (unfold getCurrentPreKey; now rewrite HkA).
  assert (HfindB : findPreKey B (PrivateKey.publicKey preB) = Ok preB)
    by (unfold findPreKey; rewrite HkB; simpl; now rewrite matches_own).
  pose proof (@sharedSecret_run A
                (PublicKeyBundle.new (PrivateKey.publicKey idB) (PrivateKey.publicKey preB))
                None _ _ idA preA eq_refl eq_refl HvB HidA HcurA) as HS.
  pose proof (@sharedSecret_run B
                (PublicKeyBundle.new (PrivateKey.publicKey idA) (PrivateKey.publicKey preA))
                (Some (PrivateKey.publicKey preB)) _ _ idB preB
                eq_refl eq_refl HvA HidB HfindB) as HR.
  eexists. split; [exact HS|].
  rewrite HR. unfold PrivateKey.sharedSecret. unfold derived in *.
  rewrite DidA, DpreA, DidB, DpreB.
  rewrite (Hdh (PrivateKey.secret preB) (PrivateKey.secret idA)).
  rewrite (Hdh (PrivateKey.secret idB) (PrivateKey.secret preA)).
  rewrite (Hdh (PrivateKey.secret preB) (PrivateKey.secret preA)).
  reflexivity.
Qed.

(** A generated bundle can be advertised. *)
Lemma generate_advertisable (wallet : option Signer) (w w' : World) (b : t) :
  soundSignatures ->
  generate wallet w = (Ok b, w') ->
  exists id pre,
    identityKey b = Some id /\ preKeys b = [pre] /\ derived id /\ derived pre /\
    PublicKey.verifyKey (PrivateKey.publicKey id) (PrivateKey.publicKey pre) = true /\
    getPublicKeyBundle b
      = Ok (PublicKeyBundle.new (PrivateKey.publicKey id) (PrivateKey.publicKey pre)).
Proof.
  intros Hsound H. apply generate_Ok in H.
  destruct H as (id & pre & sig & w1 & Hid & Hk & Did & Dpre & Hsig & Hsign).
  exists id, pre. repeat split; trivial.
  - unfold PublicKey.verifyKey. rewrite Hsig, Did. eapply Hsound, Hsign.
  - unfold getPublicKeyBundle, getCurrentPreKey. now rewrite Hid, Hk.
Qed.

(** C1, as amended -- For any two generated bundles [A] and [B], with a
    commutative Diffie-Hellman combination and signatures that verify
    under the signer's public point, the sender-role call
    [A.sharedSecret(B.getPublicKeyBundle())] and the recipient-role call
    [B.sharedSecret(A.getPublicKeyBundle(), preKey)] that names the
    pre-key of [B]'s own public bundle (the one [A] combined with) both
    return, and return the same bytes. *)
Theorem sharedSecret_agreement
        (walletA walletB : option Signer) (wA wA' wB wB' : World) (A B : t) :
  commutative -> soundSignatures ->
  generate walletA wA = (Ok A, wA') ->
  generate walletB wB = (Ok B, wB') ->
  exists pubA pubB secret,
    getPublicKeyBundle A = Ok pubA /\
    getPublicKeyBundle B = Ok pubB /\
    sharedSecret A pubB None = Ok secret /\
    sharedSecret B pubA (PublicKeyBundle.preKey pubB) = Ok secret.
Proof.
  intros Hdh Hsound HA HB.
  destruct (generate_advertisable _ _ Hsound HA)
    as (idA & preA & HidA & HkA & DidA & DpreA & HvA & HpA).
  destruct (generate_advertisable _ _ Hsound HB)
    as (idB & preB & HidB & HkB & DidB & DpreB & HvB & HpB).
  destruct (@agreement A B idA preA idB preB [] [] Hdh
              HidA HkA DidA DpreA HvA HidB HkB DidB DpreB HvB)
    as (secret & Hs & Hr).
  eexists _, _, secret. repeat split; eauto.
Qed.
End Agreement.

(** ** [encode] and [decode] *)

Section Persistence.
Context {P : Platform} {St : Storage}.

(** What [encode] does once its two checks have passed. *)
Lemma encode_body (this : t) (wallet : Signer) (idKey : PrivateKey.t) (w : World) :
  preKeys this <> [] ->
  identityKey this = Some idKey ->
  encode this wallet w =
  (wPreKey <- getRandomValues 32 ;;
   sig <- signMessage wallet wPreKey ;;
   ciphertext <- encrypt (encodePrivateKeyBundle
                            {| identityKey := Some idKey;
                               preKeys := preKeys this |})
                         (hexToBytes sig) ;;
   ret (encodeEncryptedPrivateKeyBundle
          {| EncryptedPrivateKeyBundle.walletPreKey := Some wPreKey;
             EncryptedPrivateKeyBundle.ciphertext := Some ciphertext |})) w.
Proof.
  intros Hk Hid. unfold encode. rewrite Hid.
  destruct (preKeys this); [contradiction|reflexivity].
Qed.

(** C8, as amended -- [encode] fails with [MissingPreKeys] for every
    bundle whose list of pre-keys is empty, and with [MissingIdentityKey]
    for every bundle that holds a pre-key and whose identity key is absent
    (the pre-key check comes first); in both cases the world is the one
    the call started in: nothing was drawn, signed or encrypted.  A bundle
    with a pre-key and an identity key passes both checks and goes on to
    draw the wallet pre-key. *)
Theorem encode_preconditions (this : t) (wallet : Signer) (w : World) :
  (preKeys this = [] -> encode this wallet w = (Err MissingPreKeys, w)) /\
  (preKeys this <> [] -> identityKey this = None ->
   encode this wallet w = (Err MissingIdentityKey, w)) /\
  (forall idKey,
      preKeys this <> [] -> identityKey this = Some idKey ->
      encode this wallet w =
      (wPreKey <- getRandomValues 32 ;;
       sig <- signMessage wallet wPreKey ;;
       ciphertext <- encrypt (encodePrivateKeyBundle
                                {| identityKey := Some idKey;
                                   preKeys := preKeys this |})
                             (hexToBytes sig) ;;
       ret (encodeEncryptedPrivateKeyBundle
              {| EncryptedPrivateKeyBundle.walletPreKey := Some wPreKey;
                 EncryptedPrivateKeyBundle.ciphertext := Some ciphertext |})) w).
Proof.
  repeat split.
  - intros Hk. unfold encode. now rewrite Hk.
  - intros Hk Hid. unfold encode. rewrite Hid.
    destruct (preKeys this); [contradiction|reflexivity].
  - intros idKey Hk Hid. now apply encode_body.
Qed.

(** The complete behaviour of [decode] on an envelope that parses. *)
Lemma decode_run (wallet : Signer) (stored : bytes) (w : World)
      (encrypted : EncryptedPrivateKeyBundle.t) :
  decodeEncryptedPrivateKeyBundle stored = Ok encrypted ->
  decode wallet stored w =
  match EncryptedPrivateKeyBundle.walletPreKey encrypted with
  | None => (Err MissingWalletPreKey, w)
  | Some walletPreKey =>
      match signMessage wallet walletPreKey w with
      | (Err e, w1) => (Err e, w1)
      | (Ok sig, w1) =>
          match EncryptedPrivateKeyBundle.ciphertext encrypted,
                aeadOf (EncryptedPrivateKeyBundle.ciphertext encrypted) with
          | Some c, Some _ =>
              match decrypt (Ciphertext.new c) (hexToBytes sig) w1 with
              | (Err e, w2) => (Err e, w2)
              | (Ok plain, w2) =>
                  match decodePrivateKeyBundle plain with
                  | Err e => (Err e, w2)
                  | Ok inner =>
                      match identityKey inner, preKeys inner with
                      | None, _ => (Err MissingIdentityKey, w2)
                      | Some _, [] => (Err MissingPreKeys, w2)
                      | Some idKey, _ :: _ =>
                          (Ok (new (Some (PrivateKey.new idKey))
                                   (Some (map PrivateKey.new (preKeys inner)))), w2)
                      end
                  end
              end
          | _, _ => (Err MissingCiphertext, w1)
          end
      end
  end.
Proof.
  intros Hparse. unfold decode, bind, lift, throw, ret. rewrite Hparse.
  destruct (EncryptedPrivateKeyBundle.walletPreKey encrypted) as [wpk|];
    [|reflexivity].
  destruct (signMessage wallet wpk w) as [[sig|e] w1]; [|reflexivity].
  destruct (EncryptedPrivateKeyBundle.ciphertext encrypted) as [c|];
    [|reflexivity].
  unfold aeadOf.
  destruct (Ciphertext.aes256GcmHkdfSha256 c); [|reflexivity].
  destruct (decrypt (Ciphertext.new c) (hexToBytes sig) w1) as [[plain|e] w2];
    [|reflexivity].
  destruct (decodePrivateKeyBundle plain) as [inner|e]; [|reflexivity].
  destruct (identityKey inner); [|reflexivity].
  destruct (preKeys inner); reflexivity.
Qed.
(** C5, as amended -- On an envelope that parses, [decode] fails with
    [MissingWalletPreKey] when there is no [walletPreKey]; with the
    [walletPreKey] there and the wallet's answer received, it fails with
    [MissingCiphertext] when the AEAD variant is absent; after a
    successful decryption and parse of the inner bundle, it fails with
    [MissingIdentityKey] when the identity key is absent and with
    [MissingPreKeys] when the identity key is there and no pre-key is;
    and it returns a bundle only when none of these conditions holds. *)
Theorem decode_failures (wallet : Signer) (stored : bytes) (w : World)
        (encrypted : EncryptedPrivateKeyBundle.t) :
  decodeEncryptedPrivateKeyBundle stored = Ok encrypted ->
  (EncryptedPrivateKeyBundle.walletPreKey encrypted = None ->
   decode wallet stored w = (Err MissingWalletPreKey, w)) /\
  (forall walletPreKey sig w1,
      EncryptedPrivateKeyBundle.walletPreKey encrypted = Some walletPreKey ->
      signMessage wallet walletPreKey w = (Ok sig, w1) ->
      (aeadOf (EncryptedPrivateKeyBundle.ciphertext encrypted) = None ->
       decode wallet stored w = (Err MissingCiphertext, w1)) /\
      (forall c plain inner w2,
          EncryptedPrivateKeyBundle.ciphertext encrypted = Some c ->
          Ciphertext.aes256GcmHkdfSha256 c <> None ->
          decrypt (Ciphertext.new c) (hexToBytes sig) w1 = (Ok plain, w2) ->
          decodePrivateKeyBundle plain = Ok inner ->
          (identityKey inner = None ->
           decode wallet stored w = (Err MissingIdentityKey, w2)) /\
          (identityKey inner <> None -> preKeys inner = [] ->
           decode wallet stored w = (Err MissingPreKeys, w2)))) /\
  (forall bundle w',
      decode wallet stored w = (Ok bundle, w') ->
      exists walletPreKey sig w1 c plain inner idKey,
        EncryptedPrivateKeyBundle.walletPreKey encrypted = Some walletPreKey /\
        signMessage wallet walletPreKey w = (Ok sig, w1) /\
        EncryptedPrivateKeyBundle.ciphertext encrypted = Some c /\
        Ciphertext.aes256GcmHkdfSha256 c <> None /\
        decrypt (Ciphertext.new c) (hexToBytes sig) w1 = (Ok plain, w') /\
        decodePrivateKeyBundle plain = Ok inner /\
        identityKey inner = Some idKey /\
        preKeys inner <> [] /\
        bundle = new (Some (PrivateKey.new idKey))
                     (Some (map PrivateKey.new (preKeys inner)))).
Proof.
  intros Hparse. rewrite (@decode_run wallet stored w encrypted Hparse).
  split; [|split].
  - now intros ->.
  - intros wpk sig w1 -> ->. split.
    + intros Hnone.
      destruct (EncryptedPrivateKeyBundle.ciphertext encrypted); [|reflexivity].
      now rewrite Hnone.
    + intros c plain inner w2 -> Haead -> ->. unfold aeadOf.
      destruct (Ciphertext.aes256GcmHkdfSha256 c); [|contradiction].
      split.
      * now intros ->.
      * intros Hid ->. destruct (identityKey inner); [reflexivity|contradiction].
  - intros bundle w'.
    destruct (EncryptedPrivateKeyBundle.walletPreKey encrypted) as [wpk|];
      [|discriminate].
    destruct (signMessage wallet wpk w) as [[sig|e] w1] eqn:Hsig; [|discriminate].
    destruct (EncryptedPrivateKeyBundle.ciphertext encrypted) as [c|];
      [|discriminate].
    unfold aeadOf.
    destruct (Ciphertext.aes256GcmHkdfSha256 c) as [a|] eqn:Haead; [|discriminate].
    destruct (decrypt (Ciphertext.new c) (hexToBytes sig) w1) as [[plain|e] w2] eqn:Hdec;
      [|discriminate].
    destruct (decodePrivateKeyBundle plain) as [inner|e] eqn:Hinner; [|discriminate].
    destruct (identityKey inner) as [idKey|] eqn:Hid; [|discriminate].
    destruct (preKeys inner) as [|k ks] eqn:Hk; [discriminate|].
    intros H. inversion H; subst; clear H.
    exists wpk, sig, w1, c, plain, inner, idKey.
    rewrite Haead, Hk. repeat split; trivial; discriminate.
Qed.

(** Whatever [encode] wrote, [decode] reads back with the same wallet, in
    any later world. *)
Lemma decode_of_encode (this : t) (wallet : Signer) (stored : bytes) (w w' : World) :
  faithfulCodec -> correctCipher -> deterministic wallet ->
  encode this wallet w = (Ok stored, w') ->
  forall w2, exists bundle w3,
      decode wallet stored w2 = (Ok bundle, w3) /\
      identityKey bundle = identityKey this /\
      preKeys bundle = preKeys this.
Proof.
  intros [Hinner Houter] Hcipher Hdet Henc w2.
  assert (Hk : preKeys this <> []).
  { intros Hk. unfold encode in Henc. rewrite Hk in Henc. discriminate. }
  destruct (identityKey this) as [idKey|] eqn:Hid.
  2:{ unfold encode in Henc. rewrite Hid in Henc.
      destruct (preKeys this); discriminate. }
  rewrite (@encode_body this wallet idKey w Hk Hid) in Henc.
  apply bind_Ok in Henc. destruct Henc as (wPreKey & w1 & _ & Henc).
  apply bind_Ok in Henc. destruct Henc as (sig & w1' & Hsig & Henc).
  apply bind_Ok in Henc. destruct Henc as (c & w1'' & Hc & Hret).
  unfold ret in Hret. injection Hret as <- <-.
  rewrite (@decode_run wallet _ w2 _ (Houter _)). cbn [EncryptedPrivateKeyBundle.walletPreKey
    EncryptedPrivateKeyBundle.ciphertext aeadOf].
  pose proof (Hdet wPreKey w2 w1) as Hsame. rewrite Hsig in Hsame.
  destruct (signMessage wallet wPreKey w2) as [r w3]. simpl in Hsame. subst r.
  destruct (Hcipher _ _ _ _ _ Hc) as [Haead Hdec].
  destruct (Ciphertext.aes256GcmHkdfSha256 c); [|contradiction].
  rewrite Ciphertext_new_id.
  destruct (Hdec w3) as (w4 & ->).
  rewrite Hinner. cbn [identityKey preKeys].
  destruct (preKeys this) as [|k ks] eqn:Hks; [contradiction|].
  eexists _, w4. split; [reflexivity|].
  unfold new. cbn [identityKey preKeys].
  now rewrite PrivateKey_new_id, map_PrivateKey_new.
Qed.

(** C4 -- Round trip.  For every bundle with at least one pre-key and an
    identity key, and a deterministic wallet (the codecs being faithful,
    the cipher correct, and random source, wallet and cipher answering),
    [encode] returns, and [decode] with the same wallet returns from its
    output a bundle with the same identity key and the same pre-keys in
    the same order, secret and public material alike. *)
Theorem decode_encode_roundtrip (this : t) (wallet : Signer) (w : World) :
  faithfulCodec -> correctCipher -> available wallet ->
  deterministic wallet ->
  preKeys this <> [] -> identityKey this <> None ->
  exists stored w',
    encode this wallet w = (Ok stored, w') /\
    forall w2, exists bundle w3,
        decode wallet stored w2 = (Ok bundle, w3) /\
        identityKey bundle = identityKey this /\
        preKeys bundle = preKeys this.
Proof.
  intros Hcodec Hcipher (Hrand & Hsign & Hseal) Hdet Hk Hid.
  destruct (identityKey this) as [idKey|] eqn:Eid; [clear Hid|contradiction].
  assert (Hrun : exists stored w', encode this wallet w = (Ok stored, w')).
  { rewrite (@encode_body this wallet idKey w Hk Eid).
    destruct (Hrand 32 w) as (wPreKey & w1 & H1).
    destruct (Hsign wPreKey w1) as (sig & w2 & H2).
    destruct (Hseal (encodePrivateKeyBundle
                       {| identityKey := Some idKey; preKeys := preKeys this |})
                    (hexToBytes sig) w2) as (c & w3 & H3).
    eexists _, w3.
    erewrite bind_step by exact H1.
    erewrite bind_step by exact H2.
    erewrite bind_step by exact H3.
    reflexivity. }
  destruct Hrun as (stored & w' & Henc).
  exists stored, w'. split; [exact Henc|].
  intros w2.
  destruct (@decode_of_encode this wallet stored w w' Hcodec Hcipher Hdet Henc w2) as (b & w3 & Hd & Hi & Hp).
  exists b, w3. rewrite Eid in Hi. auto.
Qed.
End Persistence.

(** ** [getCurrentPreKey] and [getPublicKeyBundle] on a bundle without pre-keys *)

Section EmptyBundle.

(** C10, as amended -- A bundle without pre-keys can be built, the
    constructor turning an omitted [preKeys] into the empty list.  On such
    a bundle [getCurrentPreKey] returns [undefined] without raising, and
    [getPublicKeyBundle] raises the [TypeError] of reading [.publicKey]
    on [undefined]: it builds no [PublicKeyBundle], and raises no error of
    its own about a corrupted bundle. *)
Theorem empty_bundle_behaviour (idKey : option PrivateKey.t) (this : t) :
  preKeys (new idKey None) = [] /\
  (preKeys this = [] ->
   getCurrentPreKey this = None /\
   getPublicKeyBundle this = Err TypeError).
Proof.
  split; [reflexivity|].
  intros Hk. unfold getPublicKeyBundle, getCurrentPreKey. rewrite Hk.
  split; [reflexivity|]. now destruct (identityKey this).
Qed.
End EmptyBundle.

(** * The concrete platform

    The small platform satisfies what the statements assume of the
    collaborators, and the model runs on it. *)

Section ToyLaws.
Import Toy.

Lemma toZ_ofZ (z : Z) : (0 <= z < 256)%Z -> toZ (ofZ z) = z.
Proof.
  intros Hz. unfold ofZ.
  destruct (Byte.of_N (Z.to_N z)) as [b|] eqn:Hb.
  - apply Byte.to_of_N in Hb. simpl. rewrite Hb. lia.
  - apply Byte.of_N_None_iff in Hb. lia.
Qed.

Lemma toZ_nonneg (b : bytes) : (0 <= toZ b)%Z.
Proof. destruct b; simpl; lia. Qed.

Lemma toy_commutative : commutative (P := platform).
Proof.
  intros a b. simpl. unfold combine, publicPoint.
  assert (Hm : (0 < modulus)%Z) by reflexivity.
  assert (Hr : forall z, (0 <= z mod modulus < 256)%Z).
  { intros z. pose proof (Z.mod_pos_bound z modulus Hm). unfold modulus in *. lia. }
  rewrite !toZ_ofZ by apply Hr.
  rewrite <- !Zpow_facts.Zpower_mod by exact Hm.
  rewrite <- !Z.pow_mul_r by apply toZ_nonneg.
  now rewrite Z.mul_comm.
Qed.

Lemma toy_soundSignatures : soundSignatures (P := platform).
Proof.
  intros s m sig w w'. simpl. unfold signWith, checkSig.
  destruct (locked w); intros H; [discriminate|].
  injection H as <- _. apply bytes_eqb_refl.
Qed.

Lemma toy_deterministic (name : bytes) : deterministic (P := platform) name.
Proof. intros m w1 w2. destruct name; reflexivity. Qed.

Lemma toy_correctCipher : correctCipher (P := platform) (St := storage).
Proof.
  intros plain key w w' c. simpl. unfold seal. intros H.
  injection H as <- _. simpl. split; [discriminate|].
  intros w2. exists w2. unfold unseal. simpl.
  now rewrite bytes_eqb_refl.
Qed.

Lemma toy_available (name : bytes) :
  name <> [] -> available (P := platform) (St := storage) name.
Proof.
  intros Hname. repeat split; intros; simpl; unfold drawBytes, walletSign, seal, ret;
    eauto.
  destruct name; [contradiction|eauto].
Qed.

(** *** The wire format is lawful *)

Lemma bytesC_lawful : lawful bytesC.
Proof.
  intros l rest. simpl. induction l as [|b l IH]; simpl; trivial.
  now rewrite IH.
Qed.

Lemma optionC_lawful {A} (c : codec A) : lawful c -> lawful (optionC c).
Proof. intros Hc [a|] rest; simpl; trivial. now rewrite Hc. Qed.

Lemma pairC_lawful {A B} (ca : codec A) (cb : codec B) :
  lawful ca -> lawful cb -> lawful (pairC ca cb).
Proof. intros Ha Hb [a b] rest; simpl. now rewrite Ha, Hb. Qed.

Lemma takeUnary_repeat (n : nat) (rest : bytes) :
  takeUnary (repeat x01 n ++ x00 :: rest) = Some (n, rest).
Proof. induction n as [|n IH]; simpl; trivial. now rewrite IH. Qed.

Lemma takeN_putAll {A} (c : codec A) (l : list A) (rest : bytes) :
  lawful c -> takeN c (length l) (putAll c l rest) = Some (l, rest).
Proof.
  intros Hc. induction l as [|a l IH]; simpl; trivial.
  now rewrite Hc, IH.
Qed.

Lemma listC_lawful {A} (c : codec A) : lawful c -> lawful (listC c).
Proof.
  intros Hc l rest. simpl. rewrite takeUnary_repeat. now apply takeN_putAll.
Qed.

Lemma viaC_lawful {A B} (c : codec B) (f : A -> B) (g : B -> A) :
  lawful c -> (forall a, g (f a) = a) -> lawful (viaC c f g).
Proof. intros Hc Hgf a rest. simpl. now rewrite Hc, Hgf. Qed.

Lemma parse_put {A} (c : codec A) (a : A) :
  lawful c -> parse c (put c a []) = Ok a.
Proof. intros Hc. unfold parse. now rewrite Hc. Qed.

Lemma privateKeyC_lawful : lawful privateKeyC.
Proof.
  apply viaC_lawful; [|now intros [s p]].
  apply pairC_lawful; [apply bytesC_lawful|].
  apply viaC_lawful; [|now intros [pt sg]].
  apply pairC_lawful; [apply bytesC_lawful|].
  apply optionC_lawful, bytesC_lawful.
Qed.

Lemma bundleC_lawful : lawful bundleC.
Proof.
  apply viaC_lawful; [|now intros [i k]].
  apply pairC_lawful.
  - apply optionC_lawful, privateKeyC_lawful.
  - apply listC_lawful, privateKeyC_lawful.
Qed.

Lemma envelopeC_lawful : lawful envelopeC.
Proof.
  apply viaC_lawful; [|now intros [k c]].
  apply pairC_lawful; [apply optionC_lawful, bytesC_lawful|].
  apply optionC_lawful.
  apply viaC_lawful; [|now intros [a]].
  apply optionC_lawful.
  apply viaC_lawful; [|now intros [x y z]].
  repeat apply pairC_lawful; apply bytesC_lawful.
Qed.

Lemma toy_faithfulCodec : faithfulCodec (P := platform) (St := storage).
Proof.
  split; intros m.
  - exact (@parse_put _ bundleC m bundleC_lawful).
  - exact (@parse_put _ envelopeC m envelopeC_lawful).
Qed.

(** *** The sample bundles are what [generate] returns *)

Lemma alice_generated :
  generate (P := platform) None w0 = (Ok alice, w2).
Proof. reflexivity. Qed.

Lemma bob_generated :
  generate (P := platform) None w5 = (Ok bob, {| entropy := 7; locked := false |}).
Proof. reflexivity. Qed.

End ToyLaws.

(** * The statements at work on the concrete platform *)

Section Runs.
Import Toy.

(** [sharedSecret_agreement] on [alice] and [bob]. *)
Lemma sharedSecret_agreement_run :
  exists pubA pubB secret,
    getPublicKeyBundle alice = Ok pubA /\
    getPublicKeyBundle bob = Ok pubB /\
    sharedSecret (P := platform) alice pubB None = Ok secret /\
    sharedSecret (P := platform) bob pubA (PublicKeyBundle.preKey pubB) = Ok secret.
Proof.
  exact (@sharedSecret_agreement platform None None w0 _ w5 _ alice bob
           toy_commutative toy_soundSignatures alice_generated bob_generated).
Defined.

(** C1 as stated fails: when [bob], as recipient, names [alice]'s current
    pre-key, [findPreKey] looks for it among [bob]'s own pre-keys and the
    call fails, while [alice]'s sender-role call returns three bytes. *)
Lemma sharedSecret_naming_sender_preKey :
  commutative (P := platform) /\
  generate (P := platform) None w0 = (Ok alice, w2) /\
  generate (P := platform) None w5 = (Ok bob, {| entropy := 7; locked := false |}) /\
  getPublicKeyBundle alice = Ok (publicBundle alice) /\
  getPublicKeyBundle bob = Ok (publicBundle bob) /\
  sharedSecret (P := platform) alice (publicBundle bob) None = Ok [x47; x93; x15] /\
  sharedSecret (P := platform) bob (publicBundle alice)
               (option_map PrivateKey.publicKey (getCurrentPreKey alice))
    = Err PreKeyNotFound.
Proof.
  split; [exact toy_commutative|]. repeat split; reflexivity.
Defined.
(** [sharedSecret_concatenation] for [bob] as recipient of [alice], naming
    his own pre-key. *)
Lemma sharedSecret_concatenation_run :
  sharedSecret (P := platform) bob (publicBundle alice)
               (Some (PublicKey.mk [x47] (Some [xdd; x47])))
  = Ok ([x47] ++ [x93] ++ [x15]).
Proof.
  exact (@sharedSecret_concatenation platform bob (publicBundle alice)
           (Some (PublicKey.mk [x47] (Some [xdd; x47])))
           (PublicKey.mk [x06] None) (PublicKey.mk [x24] (Some [x06; x24]))
           (key x06 xdd None) (key x07 x47 (Some [xdd; x47]))
           eq_refl eq_refl eq_refl eq_refl eq_refl).
Defined.

(** C2 as stated fails: a call can pass the three checks and still not
    return a concatenation.  [alice], as recipient, is given a pre-key she
    does not hold ([bob]'s) and [findPreKey] throws; [bare], as sender, has
    no current pre-key and the call on [undefined] throws. *)
Lemma sharedSecret_fails_after_validation :
  passesValidation (P := platform) alice (publicBundle bob) = true /\
  sharedSecret (P := platform) alice (publicBundle bob)
               (Some (PublicKey.mk [x47] (Some [xdd; x47])))
    = Err PreKeyNotFound /\
  passesValidation (P := platform) bare (publicBundle bob) = true /\
  sharedSecret (P := platform) bare (publicBundle bob) None = Err TypeError.
Proof. repeat split; reflexivity. Defined.

(** [sharedSecret_validation_order]: a peer pre-key whose signature was
    made by another identity key is refused. *)
Lemma sharedSecret_validation_order_run :
  sharedSecret (P := platform) alice
               (PublicKeyBundle.new (PublicKey.mk [xdd] None)
                                    (PublicKey.mk [x24] (Some [x06; x24])))
               None
  = Err PreKeySignatureInvalid.
Proof.
  exact (proj1 (proj2 (@sharedSecret_validation_order platform alice
                         (PublicKeyBundle.new (PublicKey.mk [xdd] None)
                            (PublicKey.mk [x24] (Some [x06; x24])))
                         None))
               _ _ eq_refl eq_refl eq_refl).
Defined.

(** [generation_invariants] on [alice] and on her rotation. *)
Lemma generation_invariants_run :
  length (preKeys alice) = 1 /\
  exists (preKey : PrivateKey.t) (s : bytes) (w1 : world),
    drawScalar w2 = (Ok s, w1) /\
    PrivateKey.secret preKey = s /\ derived (P := platform) preKey /\
    nth_error (preKeys aliceRotated) 0 = Some preKey /\
    (forall i, nth_error (preKeys aliceRotated) (S i) = nth_error (preKeys alice) i) /\
    length (preKeys aliceRotated) = S (length (preKeys alice)).
Proof.
  split.
  - exact (proj1 (@generation_invariants platform) None w0 w2 alice alice_generated).
  - exact (proj1 (proj2 (proj2 (@generation_invariants platform)))
             alice aliceRotated w2 w3 eq_refl).
Defined.

(** [addPreKey_commits_last]: the signer refuses in [stuck], and [alice]
    is as she was. *)
Lemma addPreKey_commits_last_run :
  addPreKey (P := platform) (alice, stuck)
  = (Err (External "signing rejected"), (alice, tick stuck)).
Proof.
  exact (@addPreKey_commits_last platform alice stuck (tick stuck) (tick stuck)
           (key x03 xd8 None) (key x01 x06 None) (External "signing rejected")
           eq_refl eq_refl eq_refl).
Defined.

(** [rotation_survivability]: after [alice] rotates, her old pre-key still
    answers for its public half, and the current pre-key is the new one. *)
Lemma rotation_survivability_run :
  findPreKey aliceRotated (PublicKey.mk [x24] (Some [x06; x24]))
    = Ok (key x02 x24 (Some [x06; x24])) /\
  (forall peer,
      sharedSecret (P := platform) aliceRotated peer
                   (Some (PublicKey.mk [x24] (Some [x06; x24])))
      = sharedSecret (P := platform) alice peer
                     (Some (PublicKey.mk [x24] (Some [x06; x24])))) /\
  exists (newest : PrivateKey.t) (s : bytes) (w1 : world),
    drawScalar w2 = (Ok s, w1) /\
    PrivateKey.secret newest = s /\
    getCurrentPreKey aliceRotated = Some newest /\
    newest <> key x02 x24 (Some [x06; x24]).
Proof.
  refine (@rotation_survivability platform alice aliceRotated w2 w3 (alice, w2)
            [key x03 xd8 (Some [x06; xd8])]
            (PublicKey.mk [x24] (Some [x06; x24]))
            (key x02 x24 (Some [x06; x24]))
            (rotations_none _) eq_refl eq_refl _ eq_refl).
  intros k [<-|[]]. reflexivity.
Defined.

(** [decode_encode_roundtrip] on [alice]. *)
Lemma decode_encode_roundtrip_run :
  exists stored w',
    encode (St := storage) alice wallet w2 = (Ok stored, w') /\
    forall w4, exists bundle w5,
        decode (St := storage) wallet stored w4 = (Ok bundle, w5) /\
        identityKey bundle = identityKey alice /\
        preKeys bundle = preKeys alice.
Proof.
  refine (@decode_encode_roundtrip platform storage alice wallet w2
            toy_faithfulCodec toy_correctCipher (toy_available _)
            (toy_deterministic wallet) _ _); discriminate.
Defined.

(** [decode_failures]: an envelope without wallet pre-key. *)
Lemma decode_failures_run :
  decode (St := storage) wallet emptyEnvelope w0 = (Err MissingWalletPreKey, w0).
Proof.
  exact (proj1 (@decode_failures platform storage wallet emptyEnvelope w0
                  (EncryptedPrivateKeyBundle.mk None None) eq_refl)
               eq_refl).
Defined.

(** C5 as stated fails where two of its conditions meet: an envelope with
    neither wallet pre-key nor ciphertext is refused for the wallet
    pre-key, not for the ciphertext; an envelope without ciphertext is
    refused with the wallet's own rejection when the wallet does not sign;
    an inner bundle with neither identity key nor pre-key is refused for
    the identity key, not for the pre-keys. *)
Lemma decode_first_failure_wins :
  decodeEncryptedPrivateKeyBundle (Storage := storage) emptyEnvelope
    = Ok (EncryptedPrivateKeyBundle.mk None None) /\
  decode (St := storage) wallet emptyEnvelope w0 = (Err MissingWalletPreKey, w0) /\
  decodeEncryptedPrivateKeyBundle (Storage := storage) unsealedEnvelope
    = Ok (EncryptedPrivateKeyBundle.mk (Some [x2a]) None) /\
  decode (St := storage) [] unsealedEnvelope w0
    = (Err (External "user rejected signing"), w0) /\
  unseal (Ciphertext.mk (Some (Ciphertext.mkAes [x77; x2a] [x00] (put bundleC hollow []))))
         [x77; x2a] w0
    = (Ok (put bundleC hollow []), w0) /\
  decodePrivateKeyBundle (Storage := storage) (put bundleC hollow []) = Ok hollow /\
  preKeys hollow = [] /\
  decode (St := storage) wallet hollowEnvelope w0 = (Err MissingIdentityKey, w0).
Proof. repeat split; reflexivity. Defined.

(** C8 as stated fails on the bundle that lacks both: its identity key is
    absent, and [encode] fails with [MissingPreKeys]. *)
Lemma encode_checks_preKeys_first :
  identityKey hollow = None /\
  encode (St := storage) hollow wallet w0 = (Err MissingPreKeys, w0).
Proof. split; reflexivity. Defined.

(** [encode_preconditions] on a bundle with a pre-key and no identity
    key. *)
Lemma encode_preconditions_run :
  encode (St := storage) (PrivateKeyBundle.mk None [key x02 x24 None]) wallet w0
  = (Err MissingIdentityKey, w0).
Proof.
  refine (proj1 (proj2 (@encode_preconditions platform storage
                          (PrivateKeyBundle.mk None [key x02 x24 None]) wallet w0))
                _ eq_refl).
  discriminate.
Defined.

(** C10 as stated fails: on [bare], [getPublicKeyBundle] returns no
    [PublicKeyBundle]; it raises. *)
Lemma getPublicKeyBundle_raises :
  preKeys bare = [] /\
  getCurrentPreKey bare = None /\
  getPublicKeyBundle bare = Err TypeError.
Proof. repeat split; reflexivity. Defined.

(** [empty_bundle_behaviour] on [bare]. *)
Lemma empty_bundle_behaviour_run :
  getCurrentPreKey bare = None /\ getPublicKeyBundle bare = Err TypeError.
Proof.
  exact (proj2 (@empty_bundle_behaviour None bare) eq_refl).
Defined.
End Runs.

(** * Further properties of the class *)

(** ** Looking a pre-key up *)

Section Lookup.
Context {P : Platform}.

Lemma find_first {A} (f : A -> bool) (l : list A) :
  match find f l with
  | Some a =>
      exists before after,
        l = before ++ a :: after /\ f a = true /\
        forall b, In b before -> f b = false
  | None => forall a, In a l -> f a = false
  end.
Proof.
  induction l as [|x l IH]; simpl.
  - intros a [].
  - destruct (f x) eqn:Hx.
    + exists [], l. repeat split; trivial. intros b [].
    + destruct (find f l) as [a|].
      * destruct IH as (before & after & -> & Ha & Hb).
        exists (x :: before), after. repeat split; trivial.
        intros b [<-|Hin]; auto.
      * intros a [<-|Hin]; auto.
Qed.

(** X4 -- [findPreKey] returns the first pre-key of the list that matches,
    so the most recent one; it throws exactly when no pre-key matches, and
    then with [PreKeyNotFound]. *)
Theorem findPreKey_first_match (this : t) (which : PublicKey.t) :
  match findPreKey this which with
  | Ok preKey =>
      exists before after,
        preKeys this = before ++ preKey :: after /\
        PrivateKey.matches preKey which = true /\
        forall k, In k before -> PrivateKey.matches k which = false
  | Err e =>
      e = PreKeyNotFound /\
      forall k, In k (preKeys this) -> PrivateKey.matches k which = false
  end.
Proof.
  unfold findPreKey.
  pose proof (find_first (fun key => PrivateKey.matches key which) (preKeys this)) as H.
  destruct (find _ (preKeys this)); [exact H | split; [reflexivity | exact H]].
Qed.

(** X3 -- The current pre-key is found under its own public key: on a
    bundle that has a current pre-key, [findPreKey] of that key's public
    half returns the current pre-key itself; in particular, right after a
    successful [addPreKey] the public half of the new key resolves to the
    new key. *)
Theorem findPreKey_current :
  (forall (this : t) (preKey : PrivateKey.t),
      getCurrentPreKey this = Some preKey ->
      findPreKey this (PrivateKey.publicKey preKey) = Ok preKey) /\
  (forall (this this' : t) (w w' : World),
      addPreKey (this, w) = (Ok tt, (this', w')) ->
      exists preKey,
        getCurrentPreKey this' = Some preKey /\
        findPreKey this' (PrivateKey.publicKey preKey) = Ok preKey /\
        preKeys this' = preKey :: preKeys this).
Proof.
  assert (Hcur : forall (this : t) (preKey : PrivateKey.t),
             getCurrentPreKey this = Some preKey ->
             findPreKey this (PrivateKey.publicKey preKey) = Ok preKey).
  { intros this preKey. unfold getCurrentPreKey, findPreKey.
    destruct (preKeys this) as [|k ks]; simpl; [discriminate|].
    intros H. injection H as ->. now rewrite matches_own. }
  split; [exact Hcur|].
  intros this this' w w' H. apply addPreKey_Ok in H.
  destruct H as (s & w1 & id & sig & _ & _ & _ & ->).
  eexists. split; [reflexivity|]. split; [|reflexivity].
  now apply Hcur.
Qed.
End Lookup.

(** ** The outcomes of [sharedSecret] *)

Section Outcomes.
Context {P : Platform}.

(** What a returned secret is made of. *)
Lemma sharedSecret_Ok (this : t) (peer : PublicKeyBundle.t)
      (recipientPreKey : option PublicKey.t) (secret : bytes) :
  sharedSecret this peer recipientPreKey = Ok secret ->
  exists peerIdentityKey peerPreKey idKey preKey,
    PublicKeyBundle.identityKey peer = Some peerIdentityKey /\
    PublicKeyBundle.preKey peer = Some peerPreKey /\
    PublicKey.verifyKey peerIdentityKey peerPreKey = true /\
    identityKey this = Some idKey /\
    match recipientPreKey with
    | Some which => findPreKey this which = Ok preKey
    | None => getCurrentPreKey this = Some preKey
    end /\
    secret =
    match recipientPreKey with
    | Some _ => PrivateKey.sharedSecret preKey peerIdentityKey
    | None => PrivateKey.sharedSecret idKey peerPreKey
    end ++
    match recipientPreKey with
    | Some _ => PrivateKey.sharedSecret idKey peerPreKey
    | None => PrivateKey.sharedSecret preKey peerIdentityKey
    end ++
    PrivateKey.sharedSecret preKey peerPreKey.
Proof.
  intros H.
  destruct (PublicKeyBundle.identityKey peer) as [pid|] eqn:Hpid;
    [|unfold sharedSecret in H; rewrite Hpid in H; discriminate].
  destruct (PublicKeyBundle.preKey peer) as [ppre|] eqn:Hppre;
    [|unfold sharedSecret in H; rewrite Hpid, Hppre in H; discriminate].
  destruct (PublicKey.verifyKey pid ppre) eqn:Hv;
    [|unfold sharedSecret in H; rewrite Hpid, Hppre, Hv in H; discriminate].
  destruct (identityKey this) as [idKey|] eqn:Hid;
    [|unfold sharedSecret in H; rewrite Hpid, Hppre, Hv, Hid in H; discriminate].
  assert (Hsel : exists preKey,
             match recipientPreKey with
             | Some which => findPreKey this which = Ok preKey
             | None => getCurrentPreKey this = Some preKey
             end).
  { unfold sharedSecret in H. rewrite Hpid, Hppre, Hv, Hid in H. cbn [negb] in H.
    destruct recipientPreKey as [which|].
    - destruct (findPreKey this which) as [k|e]; [eauto|discriminate].
    - destruct (getCurrentPreKey this) as [k|]; [eauto|discriminate]. }
  destruct Hsel as (preKey & Hsel).
  exists pid, ppre, idKey, preKey. repeat split; trivial.
  rewrite (@sharedSecret_run P this peer recipientPreKey pid ppre idKey preKey
             Hpid Hppre Hv Hid Hsel) in H.
  now injection H.
Qed.

(** X1 -- The failures of [sharedSecret].  A failing call fails in one of
    five ways, each with its cause: [InvalidPeerBundle] (a peer key is
    missing), [PreKeySignatureInvalid] (the peer's pre-key does not verify),
    [MissingIdentityKey] (no local identity key), [PreKeyNotFound] (a
    recipient call naming a pre-key that no held key matches), or the
    [TypeError] of a sender call on a bundle without pre-keys.  The three
    writes into the result never raise [RangeError]. *)
Theorem sharedSecret_failures (this : t) (peer : PublicKeyBundle.t)
        (recipientPreKey : option PublicKey.t) (e : Error) :
  sharedSecret this peer recipientPreKey = Err e ->
  (e = InvalidPeerBundle /\
   (PublicKeyBundle.identityKey peer = None \/ PublicKeyBundle.preKey peer = None)) \/
  (e = PreKeySignatureInvalid /\
   exists peerIdentityKey peerPreKey,
     PublicKeyBundle.identityKey peer = Some peerIdentityKey /\
     PublicKeyBundle.preKey peer = Some peerPreKey /\
     PublicKey.verifyKey peerIdentityKey peerPreKey = false) \/
  (e = MissingIdentityKey /\ identityKey this = None) \/
  (e = PreKeyNotFound /\ passesValidation this peer = true /\
   exists which,
     recipientPreKey = Some which /\
     forall k, In k (preKeys this) -> PrivateKey.matches k which = false) \/
  (e = TypeError /\ passesValidation this peer = true /\
   recipientPreKey = None /\ preKeys this = []).
Proof.
  unfold sharedSecret, passesValidation.
  destruct (PublicKeyBundle.identityKey peer) as [pid|];
    [|intros H; injection H as <-; left; auto].
  destruct (PublicKeyBundle.preKey peer) as [ppre|];
    [|intros H; injection H as <-; left; auto].
  destruct (PublicKey.verifyKey pid ppre) eqn:Hv; cbn [negb];
    [|intros H; injection H as <-; right; left; split; [reflexivity|];
      exists pid, ppre; auto].
  destruct (identityKey this) as [idKey|];
    [|intros H; injection H as <-; right; right; left; auto].
  destruct recipientPreKey as [which|].
  - unfold findPreKey.
    pose proof (find_first (fun key => PrivateKey.matches key which) (preKeys this))
      as Hf.
    destruct (find _ (preKeys this)) as [k|]; cbn [rbind].
    + rewrite concat3_app. discriminate.
    + intros H. injection H as <-.
      right; right; right; left. eauto.
  - unfold getCurrentPreKey.
    destruct (preKeys this) as [|k ks]; cbn [nth_error deref rbind].
    + intros H. injection H as <-. right; right; right; right. auto.
    + rewrite concat3_app. discriminate.
Qed.

(** X2 -- The size of the secret.  When the Diffie-Hellman combination
    always yields [n] bytes, every secret [sharedSecret] returns has
    [3 * n] bytes. *)
Theorem sharedSecret_length (n : nat) (this : t) (peer : PublicKeyBundle.t)
        (recipientPreKey : option PublicKey.t) (secret : bytes) :
  (forall s p, length (getSharedSecret s p) = n) ->
  sharedSecret this peer recipientPreKey = Ok secret ->
  length secret = 3 * n.
Proof.
  intros Hn H. apply sharedSecret_Ok in H.
  destruct H as (pid & ppre & idKey & preKey & _ & _ & _ & _ & _ & ->).
  unfold PrivateKey.sharedSecret.
  destruct recipientPreKey; rewrite !length_app, !Hn; lia.
Qed.
End Outcomes.

(** ** What rotations keep *)

Section History.
Context {P : Platform}.

(** X5 -- Rotations only add.  After any number of successful [addPreKey]
    calls the identity key is the one the bundle had, the pre-keys held
    before are all still there, in their order, behind the added ones, and
    every added key has a derived public point and carries a signature. *)
Theorem rotations_keep_history (s s' : t * World) :
  rotations s s' ->
  identityKey (fst s') = identityKey (fst s) /\
  exists added,
    preKeys (fst s') = added ++ preKeys (fst s) /\
    forall k, In k added ->
              derived k /\
              exists sig, PublicKey.signature (PrivateKey.publicKey k) = Some sig.
Proof.
  induction 1 as [s | s [mid wm] [this'' w''] _ IH Hstep].
  - split; [reflexivity|]. exists []. split; [reflexivity|]. intros k [].
  - destruct IH as (Hid & added & Hkeys & Hadded).
    apply addPreKey_Ok in Hstep.
    destruct Hstep as (sc & w1 & id & sig & _ & _ & _ & ->).
    simpl in *. split; [exact Hid|].
    exists (PrivateKey.mk sc (PublicKey.mk (getPublicKey sc) (Some sig)) :: added).
    split; [now rewrite Hkeys|].
    intros k [<-|Hin]; [|now apply Hadded].
    split; [reflexivity|]. now exists sig.
Qed.

(** The failures of [addPreKey], by the step that failed. *)
Lemma addPreKey_run (this : t) (w : World) :
  addPreKey (this, w) =
  match randomPrivateKey w with
  | (Err e, w1) => (Err e, (this, w1))
  | (Ok s, w1) =>
      match identityKey this with
      | None => (Err TypeError, (this, w1))
      | Some idKey =>
          match sign (PrivateKey.secret idKey) (getPublicKey s) w1 with
          | (Err e, w2) => (Err e, (this, w2))
          | (Ok sig, w2) =>
              (Ok tt,
               (unshift (PrivateKey.mk s (PublicKey.mk (getPublicKey s) (Some sig))) this,
                w2))
          end
      end
  end.
Proof.
  unfold addPreKey, bind, getThis, lift, modifyThis. rewrite inWorld_run.
  unfold PrivateKey.generate, bind, ret.
  destruct (randomPrivateKey w) as [[s|e] w1]; simpl; [|reflexivity].
  destruct (identityKey this) as [idKey|]; simpl; [|reflexivity].
  rewrite inWorld_run. unfold PrivateKey.signKey, bind, ret. simpl.
  destruct (sign (PrivateKey.secret idKey) (getPublicKey s) w1) as [[sig|e] w2];
    reflexivity.
Qed.

(** X10 -- A failing [addPreKey].  Whatever makes [addPreKey] fail, the
    bundle is left as it was, and the failure is one of three: the random
    source failed; the bundle has no identity key, and the call raises
    [TypeError] after a scalar has been drawn; or the identity key failed
    to sign the new public point. *)
Theorem addPreKey_failure (this this' : t) (w w' : World) (e : Error) :
  addPreKey (this, w) = (Err e, (this', w')) ->
  this' = this /\
  (randomPrivateKey w = (Err e, w') \/
   (exists s, randomPrivateKey w = (Ok s, w') /\
              identityKey this = None /\ e = TypeError) \/
   (exists s w1 idKey,
       randomPrivateKey w = (Ok s, w1) /\
       identityKey this = Some idKey /\
       sign (PrivateKey.secret idKey) (getPublicKey s) w1 = (Err e, w'))).
Proof.
  rewrite addPreKey_run.
  destruct (randomPrivateKey w) as [[s|e0] w1] eqn:Hs.
  - destruct (identityKey this) as [idKey|] eqn:Hid.
    + destruct (sign (PrivateKey.secret idKey) (getPublicKey s) w1)
        as [[sig|e1] w2] eqn:Hsig; intros H; [discriminate|].
      inversion H; subst. split; [reflexivity|].
      right; right. exists s, w1, idKey. auto.
    + intros H. inversion H; subst. split; [reflexivity|].
      right; left. exists s. auto.
  - intros H. inversion H; subst. split; [reflexivity|]. now left.
Qed.

(** *** Bundles that vouch for their pre-keys *)

Lemma addPreKey_vouched (this this' : t) (w w' : World) :
  soundSignatures ->
  vouched this ->
  addPreKey (this, w) = (Ok tt, (this', w')) ->
  vouched this'.
Proof.
  intros Hsound (idKey & Hid & Did & Hne & Hall) H.
  apply addPreKey_Ok in H.
  destruct H as (s & w1 & id & sig & _ & Hid' & Hsig & ->).
  rewrite Hid in Hid'. injection Hid' as <-.
  exists idKey. simpl.
  split; [exact Hid|]. split; [exact Did|]. split; [discriminate|].
  intros k [<-|Hin]; [|now apply Hall].
  split; [reflexivity|].
  unfold PublicKey.verifyKey. simpl. rewrite Did. eapply Hsound, Hsig.
Qed.

Lemma rotations_vouched (s s' : t * World) :
  soundSignatures -> vouched (fst s) -> rotations s s' -> vouched (fst s').
Proof.
  intros Hsound Hv Hrot. revert Hv.
  induction Hrot as [s | s [mid wm] [this'' w''] _ IH Hstep]; intros Hv.
  - exact Hv.
  - exact (@addPreKey_vouched mid this'' wm w'' Hsound (IH Hv) Hstep).
Qed.

Lemma generate_vouched (wallet : option Signer) (w w' : World) (b : t) :
  soundSignatures -> generate wallet w = (Ok b, w') -> vouched b.
Proof.
  intros Hsound H.
  destruct (generate_advertisable _ _ Hsound H)
    as (id & pre & Hid & Hk & Did & Dpre & Hv & _).
  exists id. rewrite Hk.
  split; [exact Hid|]. split; [exact Did|]. split; [discriminate|].
  intros k [<-|[]]. now split.
Qed.

(** X6 -- What is advertised verifies.  With signatures that verify under
    the signer's public point, a bundle made by [generate] and rotated any
    number of times has an identity key and a current pre-key,
    [getPublicKeyBundle] returns their public keys, the advertised pre-key
    verifies under the advertised identity key, and so does every older
    pre-key the bundle still holds. *)
Theorem advertised_bundle_verifies
        (wallet : option Signer) (w w1 : World) (b : t) (s' : t * World) :
  soundSignatures ->
  generate wallet w = (Ok b, w1) ->
  rotations (b, w1) s' ->
  exists idKey preKey,
    identityKey (fst s') = Some idKey /\
    getCurrentPreKey (fst s') = Some preKey /\
    getPublicKeyBundle (fst s')
      = Ok (PublicKeyBundle.new (PrivateKey.publicKey idKey)
                                (PrivateKey.publicKey preKey)) /\
    forall k, In k (preKeys (fst s')) ->
              PublicKey.verifyKey (PrivateKey.publicKey idKey)
                                  (PrivateKey.publicKey k) = true.
Proof.
  intros Hsound Hgen Hrot.
  pose proof (@rotations_vouched (b, w1) s' Hsound
                (@generate_vouched wallet w w1 b Hsound Hgen) Hrot) as Hv.
  destruct Hv as (idKey & Hid & _ & Hne & Hall).
  destruct (preKeys (fst s')) as [|preKey rest] eqn:Hk; [contradiction|].
  exists idKey, preKey.
  unfold getPublicKeyBundle, getCurrentPreKey. rewrite Hid, Hk.
  split; [reflexivity|]. split; [reflexivity|]. split; [reflexivity|].
  intros k Hin. now apply Hall.
Qed.
End History.

(** ** Agreement across rotations *)

Section LateDelivery.
Context {P : Platform}.

(** A vouched bundle, opened: its identity key and its current pre-key. *)
Lemma vouched_open (b : t) :
  vouched b ->
  exists idKey preKey rest,
    identityKey b = Some idKey /\ preKeys b = preKey :: rest /\
    derived idKey /\ derived preKey /\
    PublicKey.verifyKey (PrivateKey.publicKey idKey) (PrivateKey.publicKey preKey) = true /\
    getPublicKeyBundle b
      = Ok (PublicKeyBundle.new (PrivateKey.publicKey idKey)
                                (PrivateKey.publicKey preKey)).
Proof.
  intros (idKey & Hid & Did & Hne & Hall).
  destruct (preKeys b) as [|preKey rest] eqn:Hk; [contradiction|].
  destruct (Hall preKey (or_introl eq_refl)) as [Dpre Hv].
  exists idKey, preKey, rest.
  unfold getPublicKeyBundle, getCurrentPreKey. rewrite Hid, Hk.
  repeat split; trivial.
Qed.

(** X7 -- A message sent before a rotation can be read after it.  Let [A]
    and [B1] be bundles made by [generate] and rotated any number of times,
    and let [A] derive a secret as sender against the bundle [B1]
    advertises.  If [B1] then rotates further, into [B2], and none of the
    keys added meanwhile matches the pre-key that was advertised, the
    recipient-role call of [B2] against [A]'s advertised bundle, naming
    that pre-key, returns the very bytes [A] derived (Diffie-Hellman being
    commutative, signatures verifying). *)
Theorem agreement_after_rotation
        (walletA walletB : option Signer)
        (wA wA1 wA2 wB wB1 wB2 wB3 wB4 : World)
        (A0 A B0 B1 B2 : t) (added : list PrivateKey.t)
        (pubA pubB : PublicKeyBundle.t) (advertised : PublicKey.t) :
  commutative -> soundSignatures ->
  generate walletA wA = (Ok A0, wA1) -> rotations (A0, wA1) (A, wA2) ->
  generate walletB wB = (Ok B0, wB1) -> rotations (B0, wB1) (B1, wB2) ->
  getPublicKeyBundle A = Ok pubA ->
  getPublicKeyBundle B1 = Ok pubB ->
  PublicKeyBundle.preKey pubB = Some advertised ->
  rotations (B1, wB3) (B2, wB4) ->
  preKeys B2 = added ++ preKeys B1 ->
  (forall k, In k added -> PrivateKey.matches k advertised = false) ->
  exists secret,
    sharedSecret A pubB None = Ok secret /\
    sharedSecret B2 pubA (Some advertised) = Ok secret.
Proof.
  intros Hdh Hsound HgA HrA HgB HrB HpA HpB Hadv HrB2 Hkeys Hfresh.
  pose proof (@rotations_vouched P (A0, wA1) (A, wA2) Hsound
                (@generate_vouched P walletA wA wA1 A0 Hsound HgA) HrA) as HvA.
  pose proof (@rotations_vouched P (B0, wB1) (B1, wB2) Hsound
                (@generate_vouched P walletB wB wB1 B0 Hsound HgB) HrB) as HvB.
  simpl in HvA, HvB.
  destruct (vouched_open HvA)
    as (idA & preA & restA & HidA & HkA & DidA & DpreA & HverA & HpubA).
  destruct (vouched_open HvB)
    as (idB & preB & restB & HidB & HkB & DidB & DpreB & HverB & HpubB).
  rewrite HpubA in HpA. injection HpA as <-.
  rewrite HpubB in HpB. injection HpB as <-.
  simpl in Hadv. injection Hadv as <-.
  destruct (@agreement P A B1 idA preA idB preB restA restB Hdh
              HidA HkA DidA DpreA HverA HidB HkB DidB DpreB HverB)
    as (secret & Hsend & Hrecv).
  exists secret. split; [exact Hsend|].
  rewrite <- Hrecv.
  destruct (rotations_shape HrB2) as (added' & _ & Hid2). simpl in Hid2.
  unfold sharedSecret, findPreKey.
  rewrite Hid2, Hkeys, find_skips by exact Hfresh. reflexivity.
Qed.
End LateDelivery.

(** ** More on [encode] and [decode] *)

Section Storage.
Context {P : Platform} {St : Storage}.

(** X11 -- A failing [encode].  [encode] fails in one of five ways: on its
    own two checks, in the world it started in; because the random source
    failed; because the wallet refused to sign the wallet pre-key that was
    drawn, in which case nothing is encrypted; or because the cipher
    failed.  In each case the error is the one of the step that failed. *)
Theorem encode_failure (this : t) (wallet : Signer) (w w' : World) (e : Error) :
  encode this wallet w = (Err e, w') ->
  (preKeys this = [] /\ e = MissingPreKeys /\ w' = w) \/
  (preKeys this <> [] /\ identityKey this = None /\
   e = MissingIdentityKey /\ w' = w) \/
  getRandomValues 32 w = (Err e, w') \/
  (exists wPreKey w1,
      getRandomValues 32 w = (Ok wPreKey, w1) /\
      signMessage wallet wPreKey w1 = (Err e, w')) \/
  (exists wPreKey w1 sig w2 idKey,
      getRandomValues 32 w = (Ok wPreKey, w1) /\
      signMessage wallet wPreKey w1 = (Ok sig, w2) /\
      identityKey this = Some idKey /\
      encrypt (encodePrivateKeyBundle
                 {| identityKey := Some idKey; preKeys := preKeys this |})
              (hexToBytes sig) w2 = (Err e, w')).
Proof.
  destruct (preKeys this) as [|k ks] eqn:Hk.
  - unfold encode. rewrite Hk. simpl. unfold throw. intros H.
    inversion H; subst. left. auto.
  - assert (Hne : preKeys this <> []) by (rewrite Hk; discriminate).
    destruct (identityKey this) as [idKey|] eqn:Hid.
    + rewrite (@encode_body P St this wallet idKey w Hne Hid). rewrite Hk.
      unfold bind, ret.
      destruct (getRandomValues 32 w) as [[wPreKey|e0] w1] eqn:Hr.
      * destruct (signMessage wallet wPreKey w1) as [[sig|e1] w2] eqn:Hs.
        -- destruct (encrypt _ (hexToBytes sig) w2) as [[c|e2] w3] eqn:Hc;
             intros H; [discriminate|].
           inversion H; subst. right; right; right; right.
           exists wPreKey, w1, sig, w2, idKey. auto.
        -- intros H. inversion H; subst. right; right; right; left.
           exists wPreKey, w1. auto.
      * intros H. inversion H; subst. right; right; left. reflexivity.
    + unfold encode. rewrite Hk, Hid. simpl. unfold throw. intros H.
      inversion H; subst. right; left. rewrite <- Hk. auto.
Qed.

(** X8 -- A restored bundle is usable.  Every bundle [decode] returns has
    an identity key and a current pre-key, [getPublicKeyBundle] returns
    their public keys, and against any peer bundle whose pre-key verifies
    the sender-role [sharedSecret] returns a secret. *)
Theorem decoded_bundle_usable (wallet : Signer) (stored : bytes) (w w' : World)
        (bundle : t) :
  decode wallet stored w = (Ok bundle, w') ->
  exists idKey preKey,
    identityKey bundle = Some idKey /\
    getCurrentPreKey bundle = Some preKey /\
    getPublicKeyBundle bundle
      = Ok (PublicKeyBundle.new (PrivateKey.publicKey idKey)
                                (PrivateKey.publicKey preKey)) /\
    forall peer peerIdentityKey peerPreKey,
      PublicKeyBundle.identityKey peer = Some peerIdentityKey ->
      PublicKeyBundle.preKey peer = Some peerPreKey ->
      PublicKey.verifyKey peerIdentityKey peerPreKey = true ->
      exists secret, sharedSecret bundle peer None = Ok secret.
Proof.
  intros H.
  assert (Hparse : exists encrypted, decodeEncryptedPrivateKeyBundle stored = Ok encrypted).
  { unfold decode in H. apply bind_Ok in H.
    destruct H as (encrypted & w1 & Hl & _). unfold lift in Hl.
    exists encrypted. now injection Hl. }
  destruct Hparse as (encrypted & Hparse).
  rewrite (@decode_run P St wallet stored w encrypted Hparse) in H.
  destruct (EncryptedPrivateKeyBundle.walletPreKey encrypted) as [wpk|];
    [|discriminate].
  destruct (signMessage wallet wpk w) as [[sig|e] w1]; [|discriminate].
  destruct (EncryptedPrivateKeyBundle.ciphertext encrypted) as [c|];
    [|discriminate].
  destruct (aeadOf (Some c)); [|discriminate].
  destruct (decrypt (Ciphertext.new c) (hexToBytes sig) w1) as [[plain|e] w2];
    [|discriminate].
  destruct (decodePrivateKeyBundle plain) as [inner|e]; [|discriminate].
  destruct (identityKey inner) as [idKey|]; [|discriminate].
  destruct (preKeys inner) as [|k ks]; [discriminate|].
  inversion H; subst.
  exists (PrivateKey.new idKey), (PrivateKey.new k).
  split; [reflexivity|]. split; [reflexivity|]. split; [reflexivity|].
  intros peer pid ppre Hpid Hppre Hv.
  eexists.
  eapply sharedSecret_run with (idKey := PrivateKey.new idKey)
                               (preKey := PrivateKey.new k);
    [exact Hpid | exact Hppre | exact Hv | reflexivity | reflexivity].
Qed.

(** X9 -- Another wallet cannot open the bundle.  With a faithful envelope
    codec and an AEAD that authenticates, what [encode] wrote with one
    wallet is never turned into a bundle by [decode] with a wallet whose
    signatures give other key bytes: [decode] fails, in every world. *)
Theorem decode_with_other_wallet_fails
        (this : t) (wallet other : Signer) (stored : bytes) (w w' : World) :
  faithfulCodec -> authenticating -> distinctWallets wallet other ->
  encode this wallet w = (Ok stored, w') ->
  forall w2, exists e w3, decode other stored w2 = (Err e, w3).
Proof.
  intros [_ Houter] Hauth Hdist Henc w2.
  assert (Hk : preKeys this <> []).
  { intros Hk. unfold encode in Henc. rewrite Hk in Henc. discriminate. }
  destruct (identityKey this) as [idKey|] eqn:Hid.
  2:{ unfold encode in Henc. rewrite Hid in Henc.
      destruct (preKeys this); discriminate. }
  rewrite (@encode_body P St this wallet idKey w Hk Hid) in Henc.
  apply bind_Ok in Henc. destruct Henc as (wPreKey & w1 & _ & Henc).
  apply bind_Ok in Henc. destruct Henc as (sig & w1' & Hsig & Henc).
  apply bind_Ok in Henc. destruct Henc as (c & w1'' & Hc & Hret).
  unfold ret in Hret. inversion Hret; subst.
  rewrite (@decode_run P St other _ w2 _ (Houter _)).
  cbn [EncryptedPrivateKeyBundle.walletPreKey EncryptedPrivateKeyBundle.ciphertext].
  destruct (signMessage other wPreKey w2) as [[sig'|e] w3] eqn:Hsig'; [|eauto].
  unfold aeadOf.
  destruct (Ciphertext.aes256GcmHkdfSha256 c); [|eauto].
  rewrite Ciphertext_new_id.
  assert (Hne : hexToBytes sig' <> hexToBytes sig).
  { intros Heq. apply (Hdist _ _ _ _ _ _ _ Hsig Hsig'). now symmetry. }
  destruct (Hauth _ _ _ _ _ _ Hc Hne w3) as (e & w4 & ->). eauto.
Qed.
End Storage.

(** ** The content codec *)

Section ContentCodec.
Context {W : TestKeyCodec.Wire}.

(** X12 -- Round trip of the content codec.  When the protobuf reader
    gives back the public key the writer wrote, [decode] of [encode key]
    returns [key], point and signature alike; the encoded content carries
    the codec's own content type and no parameters; and [decode] gives the
    same result whatever content type and parameters the content carries:
    it does not check them. *)
Theorem TestKeyCodec_roundtrip (key : PublicKey.t) :
  (forall k, TestKeyCodec.decodePublicKey (TestKeyCodec.encodePublicKey k) = Ok k) ->
  TestKeyCodec.decode (TestKeyCodec.encode key) = Ok key /\
  EncodedContent.type (TestKeyCodec.encode key) = TestKeyCodec.contentType /\
  EncodedContent.parameters (TestKeyCodec.encode key) = [] /\
  forall type parameters,
    TestKeyCodec.decode
      (EncodedContent.mk type parameters
                         (EncodedContent.content (TestKeyCodec.encode key)))
    = Ok key.
Proof.
  intros Hwire.
  assert (Hd : forall type parameters,
             TestKeyCodec.decode
               (EncodedContent.mk type parameters (TestKeyCodec.encodePublicKey key))
             = Ok key).
  { intros type parameters. unfold TestKeyCodec.decode. simpl.
    rewrite Hwire. simpl. now rewrite PublicKey_new_id. }
  repeat split; try reflexivity.
  - apply Hd.
  - intros type parameters. apply Hd.
Qed.
End ContentCodec.

(** ** Failures of [generate] and [decode] *)

Section Failures.
Context {P : Platform} {St : Storage}.

(** X13 -- A failing [generate].  [generate] fails only because the random
    source failed, at the identity key or at the pre-key, or because the
    identity key failed to sign the pre-key.  A wallet that rejects does
    not make it fail, and it never raises [TypeError] for a missing
    identity key. *)
Theorem generate_failure (wallet : option Signer) (w w' : World) (e : Error) :
  generate wallet w = (Err e, w') ->
  randomPrivateKey w = (Err e, w') \/
  exists s0 w1,
    randomPrivateKey w = (Ok s0, w1) /\
    (randomPrivateKey (afterAttestation wallet s0 w1) = (Err e, w') \/
     exists s w2,
       randomPrivateKey (afterAttestation wallet s0 w1) = (Ok s, w2) /\
       sign s0 (getPublicKey s) w2 = (Err e, w')).
Proof.
  unfold generate, bind at 1. unfold PrivateKey.generate at 1. unfold bind at 1, ret at 1.
  destruct (randomPrivateKey w) as [[s0|e0] w1] eqn:Hs0;
    [|intros H; inversion H; subst; now left].
  intros H. right. exists s0, w1. split; [reflexivity|].
  assert (Hcall : forall idKey wx,
             PrivateKey.secret idKey = s0 ->
             (done <- call (new (Some idKey) None) addPreKey ;; ret (snd done)) wx
             = (Err e, w') ->
             randomPrivateKey wx = (Err e, w') \/
             exists s w2, randomPrivateKey wx = (Ok s, w2) /\
                          sign s0 (getPublicKey s) w2 = (Err e, w')).
  { intros idKey wx Hsec. unfold bind, call, ret. rewrite addPreKey_run.
    destruct (randomPrivateKey wx) as [[s|e1] w2] eqn:Hs.
    - cbn [identityKey new]. rewrite Hsec.
      destruct (sign s0 (getPublicKey s) w2) as [[sig|e2] w3] eqn:Hsig; intros Hc;
        [discriminate|].
      inversion Hc; subst. right. exists s, w2. split; [reflexivity|exact Hsig].
    - intros Hc. inversion Hc; subst. now left. }
  destruct wallet as [wl|]; cbn [afterAttestation].
  - unfold bind at 1 in H. unfold bind at 1 in H. unfold floating in H.
    unfold PublicKey.signWithWallet, bind, ret in H. cbn [PrivateKey.publicKey PublicKey.point] in H.
    destruct (signMessage wl (getPublicKey s0) w1) as [[sg|e1] w1'];
      cbn [snd]; (eapply Hcall; [|exact H]); reflexivity.
  - unfold bind at 1 in H. unfold ret at 1 in H.
    eapply Hcall; [|exact H]. reflexivity.
Qed.

(** X14 -- A failing [decode].  [decode] fails in one of eight ways, each
    with the error of the step that failed: the envelope does not parse,
    or has no wallet pre-key (in both cases the wallet is not asked, the
    world is untouched); the wallet refuses to sign; the AEAD variant is
    missing; decryption fails; the inner bundle does not parse, has no
    identity key, or has no pre-key. *)
Theorem decode_failure (wallet : Signer) (stored : bytes) (w w' : World) (e : Error) :
  decode wallet stored w = (Err e, w') ->
  (decodeEncryptedPrivateKeyBundle stored = Err e /\ w' = w) \/
  exists encrypted,
    decodeEncryptedPrivateKeyBundle stored = Ok encrypted /\
    ((EncryptedPrivateKeyBundle.walletPreKey encrypted = None /\
      e = MissingWalletPreKey /\ w' = w) \/
     exists walletPreKey,
       EncryptedPrivateKeyBundle.walletPreKey encrypted = Some walletPreKey /\
       (signMessage wallet walletPreKey w = (Err e, w') \/
        exists sig w1,
          signMessage wallet walletPreKey w = (Ok sig, w1) /\
          ((aeadOf (EncryptedPrivateKeyBundle.ciphertext encrypted) = None /\
            e = MissingCiphertext /\ w' = w1) \/
           exists c,
             EncryptedPrivateKeyBundle.ciphertext encrypted = Some c /\
             (decrypt (Ciphertext.new c) (hexToBytes sig) w1 = (Err e, w') \/
              exists plain,
                decrypt (Ciphertext.new c) (hexToBytes sig) w1 = (Ok plain, w') /\
                (decodePrivateKeyBundle plain = Err e \/
                 exists inner,
                   decodePrivateKeyBundle plain = Ok inner /\
                   ((identityKey inner = None /\ e = MissingIdentityKey) \/
                    (identityKey inner <> None /\ preKeys inner = [] /\
                     e = MissingPreKeys))))))).
Proof.
  destruct (decodeEncryptedPrivateKeyBundle stored) as [encrypted|e0] eqn:Hparse.
  2:{ unfold decode, bind, lift. rewrite Hparse. intros H. inversion H; subst.
      left. auto. }
  rewrite (@decode_run P St wallet stored w encrypted Hparse).
  intros H. right. exists encrypted. split; [reflexivity|].
  destruct (EncryptedPrivateKeyBundle.walletPreKey encrypted) as [wpk|];
    [|inversion H; subst; left; auto].
  right. exists wpk. split; [reflexivity|].
  destruct (signMessage wallet wpk w) as [[sig|e1] w1];
    [|inversion H; subst; left; reflexivity].
  right. exists sig, w1. split; [reflexivity|].
  destruct (EncryptedPrivateKeyBundle.ciphertext encrypted) as [c|];
    [|inversion H; subst; left; auto].
  unfold aeadOf in *.
  destruct (Ciphertext.aes256GcmHkdfSha256 c) as [a|];
    [|inversion H; subst; left; auto].
  right. exists c. split; [reflexivity|].
  destruct (decrypt (Ciphertext.new c) (hexToBytes sig) w1) as [[plain|e2] w2];
    [|inversion H; subst; left; reflexivity].
  destruct (decodePrivateKeyBundle plain) as [inner|e3] eqn:Hinner.
  2:{ inversion H; subst. right. exists plain. split; [reflexivity|]. left. exact Hinner. }
  destruct (identityKey inner) as [idKey|] eqn:Hid.
  2:{ inversion H; subst. right. exists plain. split; [reflexivity|]. right.
      exists inner. split; [exact Hinner|]. left. auto. }
  destruct (preKeys inner) as [|k ks] eqn:Hk; [|discriminate].
  inversion H; subst. right. exists plain. split; [reflexivity|]. right.
  exists inner. split; [exact Hinner|]. right.
  rewrite Hid. repeat split; trivial. discriminate.
Qed.
End Failures.

(** * The further properties at work on the concrete platform *)

Section MoreToyLaws.
Import Toy.

Lemma toy_combine_length (s p : bytes) : length (combine s p) = 1.
Proof.
  unfold combine, ofZ.
  destruct (Byte.of_N (Z.to_N ((toZ p ^ toZ s) mod modulus))) as [b|] eqn:Hb;
    [reflexivity|].
  apply Byte.of_N_None_iff in Hb.
  pose proof (Z.mod_pos_bound (toZ p ^ toZ s) modulus eq_refl) as Hm.
  unfold modulus in *. lia.
Qed.

Lemma toy_authenticating : authenticating (P := platform) (St := storage).
Proof.
  intros plain key other w w' c. simpl. unfold seal. intros H Hne w2.
  injection H as <- _. unfold unseal. simpl.
  destruct (bytes_eqb key other) eqn:Heq.
  - apply bytes_eqb_eq in Heq. congruence.
  - unfold throw. eauto.
Qed.

Lemma toy_distinctWallets : distinctWallets (P := platform) wallet otherWallet.
Proof.
  intros m sig sig' wa wa' wb wb'. simpl. unfold walletSign, wallet, otherWallet, ret.
  intros H H'. injection H as <- _. injection H' as <- _.
  unfold unhex. rewrite !list_byte_of_string_of_list_byte. discriminate.
Qed.

Lemma publicKeyC_lawful : lawful publicKeyC.
Proof.
  apply viaC_lawful; [|now intros [pt sg]].
  apply pairC_lawful; [apply bytesC_lawful|].
  apply optionC_lawful, bytesC_lawful.
Qed.

Lemma toy_wire_faithful (k : PublicKey.t) :
  TestKeyCodec.decodePublicKey (TestKeyCodec.encodePublicKey k) = Ok k.
Proof. exact (@parse_put _ publicKeyC k publicKeyC_lawful). Qed.

Lemma alice_rotates : rotations (P := platform) (alice, w2) (aliceRotated, w3).
Proof. eapply rotations_more; [apply rotations_none | reflexivity]. Qed.

Lemma bob_rotates : rotations (P := platform) (bob, w7) (bobRotated, w8).
Proof. eapply rotations_more; [apply rotations_none | reflexivity]. Qed.

Lemma alice_stored :
  encode (St := storage) alice wallet w2
  = (Ok aliceStored, {| entropy := 4; locked := false |}).
Proof. reflexivity. Qed.
End MoreToyLaws.

Section MoreRuns.
Import Toy.

(** [sharedSecret_failures]: the sender call of [bare]. *)
Lemma sharedSecret_failures_run :
  (TypeError = InvalidPeerBundle /\
   (PublicKeyBundle.identityKey (publicBundle bob) = None \/
    PublicKeyBundle.preKey (publicBundle bob) = None)) \/
  (TypeError = PreKeySignatureInvalid /\
   exists peerIdentityKey peerPreKey,
     PublicKeyBundle.identityKey (publicBundle bob) = Some peerIdentityKey /\
     PublicKeyBundle.preKey (publicBundle bob) = Some peerPreKey /\
     PublicKey.verifyKey (P := platform) peerIdentityKey peerPreKey = false) \/
  (TypeError = MissingIdentityKey /\ identityKey bare = None) \/
  (TypeError = PreKeyNotFound /\
   passesValidation (P := platform) bare (publicBundle bob) = true /\
   exists which,
     @None PublicKey.t = Some which /\
     forall k, In k (preKeys bare) -> PrivateKey.matches k which = false) \/
  (TypeError = TypeError /\
   passesValidation (P := platform) bare (publicBundle bob) = true /\
   @None PublicKey.t = None /\ preKeys bare = []).
Proof.
  exact (@sharedSecret_failures platform bare (publicBundle bob) None TypeError eq_refl).
Defined.

(** [sharedSecret_length]: three one-byte combinations. *)
Lemma sharedSecret_length_run : length [x47; x93; x15] = 3 * 1.
Proof.
  exact (@sharedSecret_length platform 1 alice (publicBundle bob) None
           [x47; x93; x15] toy_combine_length eq_refl).
Defined.

(** [findPreKey_current] on [aliceRotated] and on the rotation of
    [alice]. *)
Lemma findPreKey_current_run :
  findPreKey aliceRotated (PublicKey.mk [xd8] (Some [x06; xd8]))
    = Ok (key x03 xd8 (Some [x06; xd8])) /\
  exists preKey,
    getCurrentPreKey aliceRotated = Some preKey /\
    findPreKey aliceRotated (PrivateKey.publicKey preKey) = Ok preKey /\
    preKeys aliceRotated = preKey :: preKeys alice.
Proof.
  split.
  - exact (proj1 (@findPreKey_current platform) aliceRotated
             (key x03 xd8 (Some [x06; xd8])) eq_refl).
  - exact (proj2 (@findPreKey_current platform) alice aliceRotated w2 w3 eq_refl).
Defined.

(** [findPreKey_first_match]: the older key of [aliceRotated] is behind
    the newer one. *)
Lemma findPreKey_first_match_run :
  exists before after,
    preKeys aliceRotated = before ++ key x02 x24 (Some [x06; x24]) :: after /\
    PrivateKey.matches (key x02 x24 (Some [x06; x24])) (PublicKey.mk [x24] None) = true /\
    forall k, In k before -> PrivateKey.matches k (PublicKey.mk [x24] None) = false.
Proof.
  exact (@findPreKey_first_match aliceRotated (PublicKey.mk [x24] None)).
Defined.

(** [rotations_keep_history] on the rotation of [alice]. *)
Lemma rotations_keep_history_run :
  identityKey aliceRotated = identityKey alice /\
  exists added,
    preKeys aliceRotated = added ++ preKeys alice /\
    forall k, In k added ->
              derived (P := platform) k /\
              exists sig, PublicKey.signature (PrivateKey.publicKey k) = Some sig.
Proof.
  exact (@rotations_keep_history platform (alice, w2) (aliceRotated, w3) alice_rotates).
Defined.

(** [addPreKey_failure]: [headless] has no identity key. *)
Lemma addPreKey_failure_run :
  headless = headless /\
  (drawScalar w0 = (Err TypeError, tick w0) \/
   (exists s, drawScalar w0 = (Ok s, tick w0) /\
              identityKey headless = None /\ TypeError = TypeError) \/
   (exists s w1 idKey,
       drawScalar w0 = (Ok s, w1) /\
       identityKey headless = Some idKey /\
       signWith (PrivateKey.secret idKey) (publicPoint s) w1
         = (Err TypeError, tick w0))).
Proof.
  exact (@addPreKey_failure platform headless headless w0 (tick w0) TypeError eq_refl).
Defined.

(** [advertised_bundle_verifies] on [aliceRotated]. *)
Lemma advertised_bundle_verifies_run :
  exists idKey preKey,
    identityKey aliceRotated = Some idKey /\
    getCurrentPreKey aliceRotated = Some preKey /\
    getPublicKeyBundle aliceRotated
      = Ok (PublicKeyBundle.new (PrivateKey.publicKey idKey)
                                (PrivateKey.publicKey preKey)) /\
    forall k, In k (preKeys aliceRotated) ->
              PublicKey.verifyKey (P := platform) (PrivateKey.publicKey idKey)
                                  (PrivateKey.publicKey k) = true.
Proof.
  exact (@advertised_bundle_verifies platform None w0 w2 alice (aliceRotated, w3)
           toy_soundSignatures alice_generated alice_rotates).
Defined.

(** [agreement_after_rotation]: [alice] sends to [bob], [bob] rotates,
    then reads. *)
Lemma agreement_after_rotation_run :
  exists secret,
    sharedSecret (P := platform) alice (publicBundle bob) None = Ok secret /\
    sharedSecret (P := platform) bobRotated (publicBundle alice)
                 (Some (PublicKey.mk [x47] (Some [xdd; x47])))
      = Ok secret.
Proof.
  refine (@agreement_after_rotation platform None None
            w0 w2 w2 w5 w7 w7 w7 w8 alice alice bob bob bobRotated
            [key x08 xaf (Some [xdd; xaf])]
            (publicBundle alice) (publicBundle bob)
            (PublicKey.mk [x47] (Some [xdd; x47]))
            toy_commutative toy_soundSignatures
            alice_generated (rotations_none _)
            bob_generated (rotations_none _)
            eq_refl eq_refl eq_refl bob_rotates eq_refl _).
  intros k [<-|[]]. reflexivity.
Defined.

(** [encode_failure]: a wallet without a name refuses to sign. *)
Lemma encode_failure_run :
  (preKeys alice = [] /\ External "user rejected signing" = MissingPreKeys /\
   w3 = w2) \/
  (preKeys alice <> [] /\ identityKey alice = None /\
   External "user rejected signing" = MissingIdentityKey /\ w3 = w2) \/
  drawBytes 32 w2 = (Err (External "user rejected signing"), w3) \/
  (exists wPreKey w1,
      drawBytes 32 w2 = (Ok wPreKey, w1) /\
      walletSign [] wPreKey w1 = (Err (External "user rejected signing"), w3)) \/
  (exists wPreKey w1 sig w2' idKey,
      drawBytes 32 w2 = (Ok wPreKey, w1) /\
      walletSign [] wPreKey w1 = (Ok sig, w2') /\
      identityKey alice = Some idKey /\
      seal (put bundleC {| identityKey := Some idKey; preKeys := preKeys alice |} [])
           (unhex sig) w2'
        = (Err (External "user rejected signing"), w3)).
Proof.
  exact (@encode_failure platform storage alice [] w2 w3
           (External "user rejected signing") eq_refl).
Defined.

(** [decoded_bundle_usable] on what was stored for [alice]. *)
Lemma decoded_bundle_usable_run :
  exists idKey preKey,
    identityKey alice = Some idKey /\
    getCurrentPreKey alice = Some preKey /\
    getPublicKeyBundle alice
      = Ok (PublicKeyBundle.new (PrivateKey.publicKey idKey)
                                (PrivateKey.publicKey preKey)) /\
    forall peer peerIdentityKey peerPreKey,
      PublicKeyBundle.identityKey peer = Some peerIdentityKey ->
      PublicKeyBundle.preKey peer = Some peerPreKey ->
      PublicKey.verifyKey (P := platform) peerIdentityKey peerPreKey = true ->
      exists secret, sharedSecret (P := platform) alice peer None = Ok secret.
Proof.
  exact (@decoded_bundle_usable platform storage wallet aliceStored w0 w0 alice eq_refl).
Defined.

(** [decode_with_other_wallet_fails]: [otherWallet] on what [wallet]
    stored. *)
Lemma decode_with_other_wallet_fails_run :
  exists e w3, decode (St := storage) otherWallet aliceStored w0 = (Err e, w3).
Proof.
  exact (@decode_with_other_wallet_fails platform storage alice wallet otherWallet
           aliceStored w2 _ toy_faithfulCodec toy_authenticating toy_distinctWallets
           alice_stored w0).
Defined.

(** [TestKeyCodec_roundtrip] on [bob]'s advertised pre-key. *)
Lemma TestKeyCodec_roundtrip_run :
  TestKeyCodec.decode (W := wire)
    (TestKeyCodec.encode (W := wire) (PublicKey.mk [x47] (Some [xdd; x47])))
  = Ok (PublicKey.mk [x47] (Some [xdd; x47])).
Proof.
  exact (proj1 (@TestKeyCodec_roundtrip wire (PublicKey.mk [x47] (Some [xdd; x47]))
                  toy_wire_faithful)).
Defined.

(** [generate_failure]: the identity key's signer is locked. *)
Lemma generate_failure_run :
  drawScalar stuck = (Err (External "signing rejected"), tick (tick stuck)) \/
  exists s0 w1,
    drawScalar stuck = (Ok s0, w1) /\
    (drawScalar (afterAttestation (P := platform) None s0 w1)
       = (Err (External "signing rejected"), tick (tick stuck)) \/
     exists s w2',
       drawScalar (afterAttestation (P := platform) None s0 w1) = (Ok s, w2') /\
       signWith s0 (publicPoint s) w2'
         = (Err (External "signing rejected"), tick (tick stuck))).
Proof.
  exact (@generate_failure platform None stuck (tick (tick stuck))
           (External "signing rejected") eq_refl).
Defined.

(** [decode_failure]: the envelope without ciphertext, read with
    [wallet]. *)
Lemma decode_failure_run :
  decode (St := storage) wallet unsealedEnvelope w0 = (Err MissingCiphertext, w0) /\
  exists encrypted,
    decodeEncryptedPrivateKeyBundle (Storage := storage) unsealedEnvelope
      = Ok encrypted.
Proof.
  split; [reflexivity|].
  destruct (@decode_failure platform storage wallet unsealedEnvelope w0 w0
              MissingCiphertext eq_refl) as [[H _]|(encrypted & H & _)].
  - discriminate H.
  - exists encrypted. exact H.
Defined.
End MoreRuns.
